(** * E-Ink display simulator: bitmap fonts and packed images

    A shallow embedding of the font renderer (fonts.ts, read from the
    bundled script) and of the XBitmap decoders (primitives.ts),
    followed by the properties of the decoders and of the text layout.

    Conventions of the embedding.
    - A JavaScript number that the code uses as a pixel coordinate, a size, a
      byte or a character code is an integer [Z].  The two scale factors of
      [drawXBitmapScaled] are the only fractional numbers: they are exact
      rationals [Q], and a division by zero gives [None] (Infinity or NaN).
    - A string is its list of UTF-16 code units; [for (const char of text)]
      walks it by code points, which [stringIterator] reproduces.
    - [font.glyphs] is a finite map from character codes to glyphs.
    - The 2D context is the external collaborator.  Its model keeps the
      current [fillStyle] and the chronological log of the 1x1 rectangles it
      was asked to fill, which are the pixels the code wrote. *)

From Stdlib Require Import ZArith QArith Qround Lia.
From stdpp Require Import base tactics option list list_numbers strings gmap.

Local Open Scope Z_scope.

(** ** JavaScript operators on integers *)

Module JS.

(** ToInt32: wrap into the signed 32-bit range. *)
Definition ToInt32 (z : Z) : Z := (z + 2 ^ 31) mod 2 ^ 32 - 2 ^ 31.

(** [a & b] *)
Definition band (a b : Z) : Z := Z.land (ToInt32 a) (ToInt32 b).

(** [a << n]: the shift count is taken modulo 32. *)
Definition shl (a n : Z) : Z := ToInt32 (Z.shiftl (ToInt32 a) (n mod 32)).

(** [a % b]: the remainder has the sign of the dividend. *)
Definition rem (a b : Z) : Z := Z.rem a b.

(** [Math.floor(a / b)] and [Math.ceil(a / b)] for a positive divisor. *)
Definition floorDiv (a b : Z) : Z := a / b.
Definition ceilDiv (a b : Z) : Z := - ((- a) / b).

(** Truthiness of a number in a condition. *)
Definition truthy (z : Z) : bool := negb (z =? 0).

(** [arr[i]]: [undefined] outside the array, also for a negative index. *)
Definition index (arr : list Z) (i : Z) : option Z :=
  if i <? 0 then None else arr !! Z.to_nat i.

(** An operand of [&]: [undefined] converts to 0. *)
Definition operand (v : option Z) : Z := default 0 v.

(** A string as its UTF-16 code units. *)
Definition String := list Z.

(** An item of the string iterator: a string of one code point, that is
    one code unit, or the two units of a surrogate pair. *)
Record Char := mkChar {
  unit0 : Z;
  unit1 : option Z
}.

Definition isLeadSurrogate (u : Z) : bool := (0xD800 <=? u) && (u <=? 0xDBFF).
Definition isTrailSurrogate (u : Z) : bool := (0xDC00 <=? u) && (u <=? 0xDFFF).

(** The string iterator behind [for ... of]: one item per code point, a
    well-formed surrogate pair being one item. *)
Fixpoint stringIterator (s : String) : list Char :=
  match s with
  | [] => []
  | u :: rest =>
      match rest with
      | v :: rest' =>
          if isLeadSurrogate u && isTrailSurrogate v
          then mkChar u (Some v) :: stringIterator rest'
          else mkChar u None :: stringIterator rest
      | [] => [mkChar u None]
      end
  end.

(** [char.charCodeAt(0)] *)
Definition charCodeAt0 (char : Char) : Z := unit0 char.

(** [text.length] *)
Definition length (s : String) : Z := Z.of_nat (List.length s).

(** A number that may be fractional or not finite. *)
Definition Number := option Q.

(** [a / b] on integers, kept exact. *)
Definition div (a b : Z) : Number :=
  if b =? 0 then None else Some (inject_Z a / inject_Z b)%Q.

(** [Math.floor(n * s)] for an integer [n]. *)
Definition floorMul (n : Z) (s : Number) : option Z :=
  match s with
  | Some q => Some (Qfloor (inject_Z n * q))
  | None => None
  end.

End JS.

(** ** The drawing surface (types.ts, primitives.ts) *)

Definition Color := string.

(** A pixel the code asked the context to fill. *)
Definition Pixel := (Z * Z * Color)%type.

Module Canvas.
Record t := mk {
  fillStyle : Color;
  painted : list Pixel
}.

(** [ctx.fillStyle = color] *)
Definition setFillStyle (c : t) (color : Color) : t :=
  mk color (painted c).

(** [ctx.fillRect(x, y, 1, 1)] *)
Definition fillRect1 (c : t) (x y : Z) : t :=
  mk (fillStyle c) (painted c ++ [(x, y, fillStyle c)]).
End Canvas.

Module DrawingContext.
Record t := mk {
  ctx : Canvas.t;
  width : Z;
  height : Z
}.
End DrawingContext.

Abbreviation DC := DrawingContext.t.

(** The log of pixel writes of a drawing context. *)
Definition painted (dc : DC) : list Pixel :=
  Canvas.painted (DrawingContext.ctx dc).

(** [for (let i = 0; i < n; i++) body]: the loop variable ranges over
    [0 .. n-1]; the body transforms the loop state. *)
Definition forRange {S : Type} (n : Z) (body : S -> Z -> S) (s : S) : S :=
  foldl body s (seqZ 0 n).

Module Primitives.

Definition drawPixel (dc : DC) (x y : Z) (color : Color) : DC :=
  DrawingContext.mk
    (Canvas.fillRect1 (Canvas.setFillStyle (DrawingContext.ctx dc) color) x y)
    (DrawingContext.width dc) (DrawingContext.height dc).

Definition drawXBitmap (dc : DC) (x y : Z) (bitmap : list Z) (w h : Z)
    (color : Color) : DC :=
  let bytesPerRow := JS.ceilDiv w 8 in
  forRange h (fun dc row =>
    forRange w (fun dc col =>
      let byteIndex := row * bytesPerRow + JS.floorDiv col 8 in
      let bitIndex := JS.rem col 8 in
      if JS.truthy (JS.band (JS.operand (JS.index bitmap byteIndex))
                            (JS.shl 1 bitIndex))
      then drawPixel dc (x + col) (y + row) color
      else dc) dc) dc.

Definition drawXBitmapScaled (dc : DC) (x y : Z) (bitmap : list Z)
    (srcW srcH destW destH : Z) (color : Color) : DC :=
  let bytesPerRow := JS.ceilDiv srcW 8 in
  let scaleX := JS.div srcW destW in
  let scaleY := JS.div srcH destH in
  forRange destH (fun dc destRow =>
    forRange destW (fun dc destCol =>
      match JS.floorMul destCol scaleX, JS.floorMul destRow scaleY with
      | Some srcCol, Some srcRow =>
          let byteIndex := srcRow * bytesPerRow + JS.floorDiv srcCol 8 in
          let bitIndex := JS.rem srcCol 8 in
          if JS.truthy (JS.band (JS.operand (JS.index bitmap byteIndex))
                                (JS.shl 1 bitIndex))
          then drawPixel dc (x + destCol) (y + destRow) color
          else dc
      | _, _ =>
          (* a source coordinate that is not finite indexes no byte:
             [undefined & mask] is 0 *)
          dc
      end) dc) dc.

End Primitives.

(** ** Bitmap fonts (types.ts, fonts.ts) *)

Module GFXGlyph.
Record t := mk {
  offset : Z;
  width : Z;
  height : Z;
  xAdvance : Z;
  xOffset : Z;
  yOffset : Z
}.
End GFXGlyph.

Module GFXFont.
Record t := mk {
  name : string;
  bitmap : list Z;
  glyphs : gmap Z GFXGlyph.t;
  first : Z;
  last : Z;
  yAdvance : Z
}.
End GFXFont.

Module TextBounds.
Record t := mk {
  w : Z;
  h : Z;
  yMin : Z;
  yMax : Z
}.
End TextBounds.

Module Fonts.
Import Primitives.

(** The two nested loops of [drawGlyph]; the loop state carries the
    context and the running [bitIndex]. *)
Definition drawGlyphBits (dc : DC) (x y : Z) (glyph : GFXGlyph.t)
    (font : GFXFont.t) (color : Color) : DC * Z :=
  forRange (GFXGlyph.height glyph) (fun st row =>
    forRange (GFXGlyph.width glyph) (fun st col =>
      let '(dc, bitIndex) := st in
      let byteIndex := GFXGlyph.offset glyph + JS.floorDiv bitIndex 8 in
      let bit := 7 - JS.rem bitIndex 8 in
      let dc :=
        if JS.truthy (JS.band
              (JS.operand (JS.index (GFXFont.bitmap font) byteIndex))
              (JS.shl 1 bit))
        then drawPixel dc (x + GFXGlyph.xOffset glyph + col)
                          (y + GFXGlyph.yOffset glyph + row) color
        else dc in
      (dc, bitIndex + 1)) st) (dc, 0).

(** Returns the context after drawing and the horizontal advance. *)
Definition drawGlyph (dc : DC) (x y charCode : Z) (font : GFXFont.t)
    (color : Color) : DC * Z :=
  match GFXFont.glyphs font !! charCode with
  | None => (dc, 0)
  | Some glyph =>
      if GFXGlyph.width glyph =? 0 then (dc, GFXGlyph.xAdvance glyph)
      else (fst (drawGlyphBits dc x y glyph font color),
            GFXGlyph.xAdvance glyph)
  end.

(** The loop of [drawText]: the context and [cursorX] after the last
    character. *)
Definition drawTextLoop (dc : DC) (text : JS.String) (x y : Z)
    (font : GFXFont.t) (color : Color) : DC * Z :=
  foldl (fun st char =>
    let '(dc, cursorX) := st in
    let '(dc, advance) :=
      drawGlyph dc cursorX y (JS.charCodeAt0 char) font color in
    (dc, cursorX + advance)) (dc, x) (JS.stringIterator text).

Definition drawText (dc : DC) (text : JS.String) (x y : Z)
    (font : GFXFont.t) (color : Color) : DC :=
  fst (drawTextLoop dc text x y font color).

Definition getTextWidth (text : JS.String) (font : GFXFont.t) : Z :=
  foldl (fun width char =>
    match GFXFont.glyphs font !! JS.charCodeAt0 char with
    | Some glyph => width + GFXGlyph.xAdvance glyph
    | None => width
    end) 0 (JS.stringIterator text).

(** The local variables of the loop of [getTextBounds]. *)
Record BoundsState := mkBounds {
  bs_width : Z;
  bs_minY : Z;
  bs_maxY : Z;
  bs_first : bool
}.

Definition getTextBoundsStep (font : GFXFont.t) (st : BoundsState)
    (char : JS.Char) : BoundsState :=
  match GFXFont.glyphs font !! JS.charCodeAt0 char with
  | Some glyph =>
      let width := bs_width st + GFXGlyph.xAdvance glyph in
      let top := GFXGlyph.yOffset glyph in
      let bottom := GFXGlyph.yOffset glyph + GFXGlyph.height glyph in
      if bs_first st then mkBounds width top bottom false
      else
        let minY := if top <? bs_minY st then top else bs_minY st in
        let maxY := if bottom >? bs_maxY st then bottom else bs_maxY st in
        mkBounds width minY maxY false
  | None => st
  end.

Definition getTextBounds (text : JS.String) (font : GFXFont.t)
    : TextBounds.t :=
  let st := foldl (getTextBoundsStep font) (mkBounds 0 0 0 true)
                  (JS.stringIterator text) in
  TextBounds.mk (bs_width st) (bs_maxY st - bs_minY st)
                (bs_minY st) (bs_maxY st).

Definition getGlyph (font : GFXFont.t) (charCode : Z)
    : option GFXGlyph.t :=
  GFXFont.glyphs font !! charCode.

Definition hasChar (font : GFXFont.t) (charCode : Z) : bool :=
  (charCode >=? GFXFont.first font) && (charCode <=? GFXFont.last font)
  && bool_decide (is_Some (GFXFont.glyphs font !! charCode)).

Definition drawTextCentered (dc : DC) (text : JS.String) (x y width : Z)
    (font : GFXFont.t) (color : Color) : DC :=
  let textW := getTextWidth text font in
  let startX := x + JS.floorDiv (width - textW) 2 in
  drawText dc text startX y font color.

Definition drawTextRightAligned (dc : DC) (text : JS.String) (rightX y : Z)
    (font : GFXFont.t) (color : Color) : DC :=
  let textW := getTextWidth text font in
  drawText dc text (rightX - textW) y font color.

(** The default font of glcdfont.c: five column bytes per character. *)
Definition BUILTIN_5X7_FONT : list Z := [
  0x00; 0x00; 0x00; 0x00; 0x00;
  0x00; 0x00; 0x5F; 0x00; 0x00;
  0x00; 0x07; 0x00; 0x07; 0x00;
  0x14; 0x7F; 0x14; 0x7F; 0x14;
  0x24; 0x2A; 0x7F; 0x2A; 0x12;
  0x23; 0x13; 0x08; 0x64; 0x62;
  0x36; 0x49; 0x55; 0x22; 0x50;
  0x00; 0x05; 0x03; 0x00; 0x00;
  0x00; 0x1C; 0x22; 0x41; 0x00;
  0x00; 0x41; 0x22; 0x1C; 0x00;
  0x08; 0x2A; 0x1C; 0x2A; 0x08;
  0x08; 0x08; 0x3E; 0x08; 0x08;
  0x00; 0x50; 0x30; 0x00; 0x00;
  0x08; 0x08; 0x08; 0x08; 0x08;
  0x00; 0x60; 0x60; 0x00; 0x00;
  0x20; 0x10; 0x08; 0x04; 0x02;
  0x3E; 0x51; 0x49; 0x45; 0x3E;
  0x00; 0x42; 0x7F; 0x40; 0x00;
  0x42; 0x61; 0x51; 0x49; 0x46;
  0x21; 0x41; 0x45; 0x4B; 0x31;
  0x18; 0x14; 0x12; 0x7F; 0x10;
  0x27; 0x45; 0x45; 0x45; 0x39;
  0x3C; 0x4A; 0x49; 0x49; 0x30;
  0x01; 0x71; 0x09; 0x05; 0x03;
  0x36; 0x49; 0x49; 0x49; 0x36;
  0x06; 0x49; 0x49; 0x29; 0x1E;
  0x00; 0x36; 0x36; 0x00; 0x00;
  0x00; 0x56; 0x36; 0x00; 0x00;
  0x00; 0x08; 0x14; 0x22; 0x41;
  0x14; 0x14; 0x14; 0x14; 0x14;
  0x41; 0x22; 0x14; 0x08; 0x00;
  0x02; 0x01; 0x51; 0x09; 0x06;
  0x32; 0x49; 0x79; 0x41; 0x3E;
  0x7E; 0x11; 0x11; 0x11; 0x7E;
  0x7F; 0x49; 0x49; 0x49; 0x36;
  0x3E; 0x41; 0x41; 0x41; 0x22;
  0x7F; 0x41; 0x41; 0x22; 0x1C;
  0x7F; 0x49; 0x49; 0x49; 0x41;
  0x7F; 0x09; 0x09; 0x01; 0x01;
  0x3E; 0x41; 0x41; 0x51; 0x32;
  0x7F; 0x08; 0x08; 0x08; 0x7F;
  0x00; 0x41; 0x7F; 0x41; 0x00;
  0x20; 0x40; 0x41; 0x3F; 0x01;
  0x7F; 0x08; 0x14; 0x22; 0x41;
  0x7F; 0x40; 0x40; 0x40; 0x40;
  0x7F; 0x02; 0x04; 0x02; 0x7F;
  0x7F; 0x04; 0x08; 0x10; 0x7F;
  0x3E; 0x41; 0x41; 0x41; 0x3E;
  0x7F; 0x09; 0x09; 0x09; 0x06;
  0x3E; 0x41; 0x51; 0x21; 0x5E;
  0x7F; 0x09; 0x19; 0x29; 0x46;
  0x46; 0x49; 0x49; 0x49; 0x31;
  0x01; 0x01; 0x7F; 0x01; 0x01;
  0x3F; 0x40; 0x40; 0x40; 0x3F;
  0x1F; 0x20; 0x40; 0x20; 0x1F;
  0x7F; 0x20; 0x18; 0x20; 0x7F;
  0x63; 0x14; 0x08; 0x14; 0x63;
  0x03; 0x04; 0x78; 0x04; 0x03;
  0x61; 0x51; 0x49; 0x45; 0x43;
  0x00; 0x00; 0x7F; 0x41; 0x41;
  0x02; 0x04; 0x08; 0x10; 0x20;
  0x41; 0x41; 0x7F; 0x00; 0x00;
  0x04; 0x02; 0x01; 0x02; 0x04;
  0x40; 0x40; 0x40; 0x40; 0x40;
  0x00; 0x01; 0x02; 0x04; 0x00;
  0x20; 0x54; 0x54; 0x54; 0x78;
  0x7F; 0x48; 0x44; 0x44; 0x38;
  0x38; 0x44; 0x44; 0x44; 0x20;
  0x38; 0x44; 0x44; 0x48; 0x7F;
  0x38; 0x54; 0x54; 0x54; 0x18;
  0x08; 0x7E; 0x09; 0x01; 0x02;
  0x08; 0x14; 0x54; 0x54; 0x3C;
  0x7F; 0x08; 0x04; 0x04; 0x78;
  0x00; 0x44; 0x7D; 0x40; 0x00;
  0x20; 0x40; 0x44; 0x3D; 0x00;
  0x00; 0x7F; 0x10; 0x28; 0x44;
  0x00; 0x41; 0x7F; 0x40; 0x00;
  0x7C; 0x04; 0x18; 0x04; 0x78;
  0x7C; 0x08; 0x04; 0x04; 0x78;
  0x38; 0x44; 0x44; 0x44; 0x38;
  0x7C; 0x14; 0x14; 0x14; 0x08;
  0x08; 0x14; 0x14; 0x18; 0x7C;
  0x7C; 0x08; 0x04; 0x04; 0x08;
  0x48; 0x54; 0x54; 0x54; 0x20;
  0x04; 0x3F; 0x44; 0x40; 0x20;
  0x3C; 0x40; 0x40; 0x20; 0x7C;
  0x1C; 0x20; 0x40; 0x20; 0x1C;
  0x3C; 0x40; 0x30; 0x40; 0x3C;
  0x44; 0x28; 0x10; 0x28; 0x44;
  0x0C; 0x50; 0x50; 0x50; 0x3C;
  0x44; 0x64; 0x54; 0x4C; 0x44;
  0x00; 0x08; 0x36; 0x41; 0x00;
  0x00; 0x00; 0x7F; 0x00; 0x00;
  0x00; 0x41; 0x36; 0x08; 0x00;
  0x08; 0x08; 0x2A; 0x1C; 0x08;
  0x08; 0x1C; 0x2A; 0x08; 0x08
].

Definition drawBuiltinChar (dc : DC) (x y : Z) (char : JS.Char)
    (color : Color) : DC :=
  let code := JS.charCodeAt0 char in
  if (code <? 0x20) || (code >? 0x7f) then dc
  else
    let index := (code - 0x20) * 5 in
    forRange 5 (fun dc col =>
      let column := JS.index BUILTIN_5X7_FONT (index + col) in
      forRange 7 (fun dc row =>
        if JS.truthy (JS.band (JS.operand column) (JS.shl 1 row))
        then drawPixel dc (x + col) (y + row) color
        else dc) dc) dc.

(** The loop of [drawBuiltinText]: the context and [cursorX] after the
    last character. *)
Definition drawBuiltinTextLoop (dc : DC) (text : JS.String) (x y : Z)
    (color : Color) : DC * Z :=
  foldl (fun st char =>
    let '(dc, cursorX) := st in
    (drawBuiltinChar dc cursorX y char color, cursorX + 6))
    (dc, x) (JS.stringIterator text).

Definition drawBuiltinText (dc : DC) (text : JS.String) (x y : Z)
    (color : Color) : DC :=
  fst (drawBuiltinTextLoop dc text x y color).

Definition getBuiltinTextWidth (text : JS.String) : Z :=
  JS.length text * 6.

End Fonts.

(** ** Specification vocabulary *)

(** Bit [b] of [arr[k]] is set; no bit is set where [arr[k]] is undefined. *)
Definition bitAt (arr : list Z) (k b : Z) : bool :=
  match JS.index arr k with
  | Some byte => Z.testbit byte b
  | None => false
  end.

(** [f] only adds pixel writes to the log, and the writes it adds are the
    pixels that satisfy [P]. *)
Definition paints (f : DC -> DC) (P : Pixel -> Prop) : Prop :=
  forall dc, exists ws,
    painted (f dc) = painted dc ++ ws /\ forall p, p ∈ ws <-> P p.

(** The glyphs of the characters of [text] that the font has, in order. *)
Definition presentGlyphs (font : GFXFont.t) (text : JS.String)
    : list GFXGlyph.t :=
  omap (fun char => GFXFont.glyphs font !! JS.charCodeAt0 char)
       (JS.stringIterator text).

Definition sumZ (l : list Z) : Z := foldr Z.add 0 l.

(** The pixel of an image at [(col, row)]: LSB-first within the byte. *)
Definition xbmPixel (bytes : list Z) (w col row : Z) : bool :=
  bitAt bytes (row * JS.ceilDiv w 8 + col / 8) (col mod 8).

(** The pixel of a glyph at [(col, row)]: bit [i = row * width + col] of the
    glyph's bit stream, MSB-first within each byte. *)
Definition glyphPixel (font : GFXFont.t) (glyph : GFXGlyph.t) (col row : Z)
    : bool :=
  let i := row * GFXGlyph.width glyph + col in
  bitAt (GFXFont.bitmap font) (GFXGlyph.offset glyph + i / 8) (7 - i mod 8).

(** The body of the inner loop of [drawGlyph] at bit index [bitIndex]. *)
Definition drawGlyphBit (x y : Z) (glyph : GFXGlyph.t) (font : GFXFont.t)
    (color : Color) (dc : DC) (bitIndex col row : Z) : DC :=
  if JS.truthy (JS.band
        (JS.operand (JS.index (GFXFont.bitmap font)
           (GFXGlyph.offset glyph + JS.floorDiv bitIndex 8)))
        (JS.shl 1 (7 - JS.rem bitIndex 8)))
  then Primitives.drawPixel dc (x + GFXGlyph.xOffset glyph + col)
                               (y + GFXGlyph.yOffset glyph + row) color
  else dc.

(** The advance of a character code: 0 when the font has no glyph for it. *)
Definition glyphAdvance (font : GFXFont.t) (code : Z) : Z :=
  match GFXFont.glyphs font !! code with
  | Some glyph => GFXGlyph.xAdvance glyph
  | None => 0
  end.

Definition glyphTop (glyph : GFXGlyph.t) : Z := GFXGlyph.yOffset glyph.
Definition glyphBottom (glyph : GFXGlyph.t) : Z :=
  GFXGlyph.yOffset glyph + GFXGlyph.height glyph.

(** The glyph of a character, if the font has one. *)
Definition glyphOf (font : GFXFont.t) (char : JS.Char) : option GFXGlyph.t :=
  GFXFont.glyphs font !! JS.charCodeAt0 char.

(** The advances of a sequence of characters. *)
Definition advances (font : GFXFont.t) (chars : list JS.Char) : list Z :=
  (fun char => glyphAdvance font (JS.charCodeAt0 char)) <$> chars.

(** No glyph of the font reaches beyond its own advance. *)
Definition noOverhang (font : GFXFont.t) : Prop :=
  map_Forall (fun _ glyph =>
    GFXGlyph.xOffset glyph + GFXGlyph.width glyph <= GFXGlyph.xAdvance glyph)
    (GFXFont.glyphs font).

(** No glyph of the font moves the cursor backwards. *)
Definition forwardAdvance (font : GFXFont.t) : Prop :=
  map_Forall (fun _ glyph => 0 <= GFXGlyph.xAdvance glyph)
    (GFXFont.glyphs font).

(** Every pixel that [drawTextRightAligned] writes lies left of [rightX]. *)
Definition inkLeftOf (font : GFXFont.t) : Prop :=
  forall dc text rightX y color ws px py c,
    painted (Fonts.drawTextRightAligned dc text rightX y font color)
    = painted dc ++ ws ->
    (px, py, c) ∈ ws -> px <= rightX - 1.

(** ** Example data *)

Module Examples.

Definition dc0 : DC := DrawingContext.mk (Canvas.mk "white" []) 200 100.

(** 'A': one row of eight pixels, only the leftmost set. *)
Definition glyphA : GFXGlyph.t := GFXGlyph.mk 0 8 1 10 1 (-7).
(** Space: no ink, advance 6. *)
Definition glyphSpace : GFXGlyph.t := GFXGlyph.mk 1 0 0 6 0 0.
(** A glyph stored at a code above [last]. *)
Definition glyphExtra : GFXGlyph.t := GFXGlyph.mk 0 2 1 3 0 (-1).

Definition font0 : GFXFont.t :=
  GFXFont.mk "Demo8pt" [0x80]
    (<[32 := glyphSpace]> (<[65 := glyphA]> (<[200 := glyphExtra]> ∅)))
    32 126 12.

End Examples.

Module BackwardFont.

(** 'A': a single pixel, advance 1. *)
Definition glyphA : GFXGlyph.t := GFXGlyph.mk 0 1 1 1 0 0.
(** 'B': no ink, placed 5 to the left, moving the cursor 5 to the left. *)
Definition glyphB : GFXGlyph.t := GFXGlyph.mk 0 0 0 (-5) (-5) 0.

Definition font : GFXFont.t :=
  GFXFont.mk "Backward" [0x80] (<[65 := glyphA]> (<[66 := glyphB]> ∅))
    65 66 8.

End BackwardFont.

(** ** The simulator class (simulator.ts) *)

Module DisplayConfig.
Record t := mk {
  width : Z;
  height : Z;
  foreground : Color;
  background : Color
}.
End DisplayConfig.

Module EinkSimulator.

(** The private fields of the class; [currentFont] is [null] ([None]) until
    [setFont] stores a font. *)
Record t := mk {
  dc : DC;
  config : DisplayConfig.t;
  currentFont : option GFXFont.t;
  textColor : Color
}.

(** [a ?? b] for an optional argument [a]. *)
Definition nullish {A : Type} (a : option A) (b : A) : A :=
  match a with
  | Some v => v
  | None => b
  end.

(** [font ?? this.currentFont]: the result may still be [null]. *)
Definition useFont (sim : t) (font : option GFXFont.t) : option GFXFont.t :=
  match font with
  | Some f => Some f
  | None => currentFont sim
  end.

Definition withDc (sim : t) (dc' : DC) : t :=
  mk dc' (config sim) (currentFont sim) (textColor sim).

Definition setFont (sim : t) (font : option GFXFont.t) : t :=
  mk (dc sim) (config sim) font (textColor sim).

Definition setTextColor (sim : t) (color : Color) : t :=
  mk (dc sim) (config sim) (currentFont sim) color.

Definition drawPixel (sim : t) (x y : Z) (color : option Color) : t :=
  withDc sim
    (Primitives.drawPixel (dc sim) x y
       (nullish color (DisplayConfig.foreground (config sim)))).

Definition drawXBitmap (sim : t) (x y : Z) (bitmap : list Z) (w h : Z)
    (color : option Color) : t :=
  withDc sim
    (Primitives.drawXBitmap (dc sim) x y bitmap w h
       (nullish color (DisplayConfig.foreground (config sim)))).

Definition drawXBitmapScaled (sim : t) (x y : Z) (bitmap : list Z)
    (srcW srcH destW destH : Z) (color : option Color) : t :=
  withDc sim
    (Primitives.drawXBitmapScaled (dc sim) x y bitmap srcW srcH destW destH
       (nullish color (DisplayConfig.foreground (config sim)))).

Definition drawText (sim : t) (text : JS.String) (x y : Z)
    (font : option GFXFont.t) (color : option Color) : t :=
  let useColor := nullish color (textColor sim) in
  match useFont sim font with
  | Some useFont =>
      withDc sim (Fonts.drawText (dc sim) text x y useFont useColor)
  | None =>
      withDc sim (Fonts.drawBuiltinText (dc sim) text x y useColor)
  end.

Definition drawTextCentered (sim : t) (text : JS.String) (x y width : Z)
    (font : option GFXFont.t) (color : option Color) : t :=
  let useColor := nullish color (textColor sim) in
  match useFont sim font with
  | Some useFont =>
      withDc sim
        (Fonts.drawTextCentered (dc sim) text x y width useFont useColor)
  | None =>
      let textW := Fonts.getBuiltinTextWidth text in
      let startX := x + JS.floorDiv (width - textW) 2 in
      withDc sim (Fonts.drawBuiltinText (dc sim) text startX y useColor)
  end.

Definition drawTextRightAligned (sim : t) (text : JS.String) (rightX y : Z)
    (font : option GFXFont.t) (color : option Color) : t :=
  let useColor := nullish color (textColor sim) in
  match useFont sim font with
  | Some useFont =>
      withDc sim
        (Fonts.drawTextRightAligned (dc sim) text rightX y useFont useColor)
  | None =>
      let textW := Fonts.getBuiltinTextWidth text in
      withDc sim
        (Fonts.drawBuiltinText (dc sim) text (rightX - textW) y useColor)
  end.

Definition getTextWidth (sim : t) (text : JS.String)
    (font : option GFXFont.t) : Z :=
  match useFont sim font with
  | Some useFont => Fonts.getTextWidth text useFont
  | None => Fonts.getBuiltinTextWidth text
  end.

Definition getTextBounds (sim : t) (text : JS.String)
    (font : option GFXFont.t) : TextBounds.t :=
  match useFont sim font with
  | Some useFont => Fonts.getTextBounds text useFont
  | None => TextBounds.mk (Fonts.getBuiltinTextWidth text) 7 0 7
  end.

End EinkSimulator.

(** ** Vocabulary of the further properties *)

(** The pixel of a built-in character at [(col, row)]: bit [row] of the
    column byte [col] of the character. *)
Definition builtinPixel (code col row : Z) : bool :=
  bitAt Fonts.BUILTIN_5X7_FONT ((code - 0x20) * 5 + col) row.

(** The pixels that were added to the log between [dc] and [dc']. *)
Definition wrote (dc dc' : DC) (ws : list Pixel) : Prop :=
  painted dc' = painted dc ++ ws.

(** The last code unit of [s1] and the first of [s2] do not form a
    surrogate pair. *)
Definition noPairAcross (s1 s2 : JS.String) : Prop :=
  match last s1, head s2 with
  | Some u, Some v =>
      JS.isLeadSurrogate u && JS.isTrailSurrogate v = false
  | _, _ => True
  end.

(** No glyph of the font starts left of the cursor. *)
Definition noLeftBearing (font : GFXFont.t) : Prop :=
  map_Forall (fun _ glyph => 0 <= GFXGlyph.xOffset glyph)
    (GFXFont.glyphs font).

(** The pixels of one glyph drawn at [(x, y)]. *)
Definition glyphInk (font : GFXFont.t) (color : Color) (x y code : Z)
    (p : Pixel) : Prop :=
  exists glyph row col,
    GFXFont.glyphs font !! code = Some glyph /\
    0 <= row < GFXGlyph.height glyph /\ 0 <= col < GFXGlyph.width glyph /\
    glyphPixel font glyph col row = true /\
    p = (x + GFXGlyph.xOffset glyph + col,
         y + GFXGlyph.yOffset glyph + row, color).

(** The pixels of one built-in character drawn with its top-left corner at
    [(x, y)]. *)
Definition builtinInk (color : Color) (x y : Z) (char : JS.Char)
    (p : Pixel) : Prop :=
  0x20 <= JS.charCodeAt0 char <= 0x7F /\
  exists col row, 0 <= col < 5 /\ 0 <= row < 7 /\
    builtinPixel (JS.charCodeAt0 char) col row = true /\
    p = (x + col, y + row, color).

(** ** JavaScript operators: bit tests *)

Section BitTests.

Lemma ToInt32_small z : - 2 ^ 31 <= z < 2 ^ 31 -> JS.ToInt32 z = z.
Proof.
  intros Hz. unfold JS.ToInt32.
  rewrite Z.mod_small by lia. lia.
Qed.

Lemma ToInt32_testbit z n : 0 <= n < 32 ->
  Z.testbit (JS.ToInt32 z) n = Z.testbit z n.
Proof.
  intros Hn. unfold JS.ToInt32.
  rewrite <- (Z.mod_pow2_bits_low _ 32 n) by lia.
  rewrite <- (Z.mod_pow2_bits_low z 32 n) by lia.
  f_equal.
  rewrite Zminus_mod_idemp_l.
  replace (z + 2 ^ 31 - 2 ^ 31) with z by lia. reflexivity.
Qed.

Lemma land_pow2_zero a n : 0 <= n ->
  (Z.land a (2 ^ n) =? 0) = negb (Z.testbit a n).
Proof.
  intros Hn. destruct (Z.testbit a n) eqn:Hb; simpl.
  - apply Z.eqb_neq. intros H0.
    assert (Z.testbit (Z.land a (2 ^ n)) n = true) as Ht.
    { rewrite Z.land_spec, Hb, Z.pow2_bits_true by lia. reflexivity. }
    rewrite H0, Z.bits_0 in Ht. discriminate.
  - apply Z.eqb_eq. apply Z.bits_inj'. intros m Hm.
    rewrite Z.land_spec, Z.bits_0, Z.pow2_bits_eqb by lia.
    destruct (Z.eqb_spec n m) as [->|]; [rewrite Hb|];
      auto using andb_false_r.
Qed.

(** The test [byte & (1 << bit)] of the three decoders reads bit [bit]. *)
Lemma band_shl_testbit byte bit : 0 <= bit < 31 ->
  JS.truthy (JS.band byte (JS.shl 1 bit)) = Z.testbit byte bit.
Proof.
  intros Hb. unfold JS.truthy, JS.band, JS.shl.
  rewrite (ToInt32_small 1) by lia.
  rewrite Z.mod_small by lia.
  rewrite Z.shiftl_1_l.
  assert (0 < 2 ^ bit < 2 ^ 31) as Hp.
  { split; [apply Z.pow_pos_nonneg; lia|apply Z.pow_lt_mono_r; lia]. }
  rewrite !(ToInt32_small (2 ^ bit)) by lia.
  rewrite land_pow2_zero by lia.
  rewrite negb_involutive. apply ToInt32_testbit. lia.
Qed.

Lemma test_bitAt arr k bit : 0 <= bit < 31 ->
  JS.truthy (JS.band (JS.operand (JS.index arr k)) (JS.shl 1 bit))
  = bitAt arr k bit.
Proof.
  intros Hb. rewrite band_shl_testbit by done. unfold bitAt.
  destruct (JS.index arr k); simpl; [done|apply Z.bits_0].
Qed.

End BitTests.

(** ** Loops *)

Section Loops.

Lemma forRange_nonpos {S} n (body : S -> Z -> S) s :
  n <= 0 -> forRange n body s = s.
Proof. intros Hn. unfold forRange. by rewrite seqZ_nil. Qed.

Lemma forRange_succ {S} n (body : S -> Z -> S) s :
  0 <= n -> forRange (Z.succ n) body s = body (forRange n body s) n.
Proof.
  intros Hn. unfold forRange.
  replace (Z.succ n) with (n + 1) by lia.
  rewrite seqZ_app by lia. rewrite foldl_app.
  rewrite (seqZ_cons (0 + n) 1), (seqZ_nil _ (Z.pred 1)) by lia.
  simpl. reflexivity.
Qed.

Lemma foldl_ext_in {S A} (f g : S -> A -> S) l s :
  (forall s a, a ∈ l -> f s a = g s a) -> foldl f s l = foldl g s l.
Proof.
  revert s. induction l as [|a l IH]; intros s Hfg; simpl; [done|].
  rewrite Hfg by left. apply IH. intros s' a' Ha'. apply Hfg. by right.
Qed.

Lemma forRange_ext {S} n (f g : S -> Z -> S) s :
  (forall s i, 0 <= i < n -> f s i = g s i) ->
  forRange n f s = forRange n g s.
Proof.
  intros Hfg. apply foldl_ext_in. intros s' i Hi.
  apply elem_of_seqZ in Hi. apply Hfg. lia.
Qed.

Lemma forRange_idle {S} n (body : S -> Z -> S) s :
  (forall s i, 0 <= i < n -> body s i = s) -> forRange n body s = s.
Proof.
  intros Hbody. rewrite (forRange_ext n body (fun s _ => s)) by done.
  unfold forRange. induction (seqZ 0 n) as [|i l IH]; simpl; done.
Qed.

(** A loop that also advances a counter by [k] on every turn: the counter
    at turn [i] is [b + i * k], and the loop can be read without it. *)
Lemma forRange_counter {S} (g : S -> Z -> Z -> S) (k n b : Z) (s : S) :
  forRange n (fun st i => (g (fst st) (snd st) i, snd st + k)) (s, b)
  = (forRange n (fun s i => g s (b + i * k) i) s, b + Z.max 0 n * k).
Proof.
  destruct (Z.le_gt_cases n 0) as [Hn|Hn].
  - rewrite !forRange_nonpos, Z.max_l by done. f_equal. lia.
  - assert (0 <= n) as Hn' by lia. clear Hn. revert n Hn'.
    apply natlike_ind.
    + rewrite !forRange_nonpos by done. f_equal. lia.
    + intros n Hn IH. rewrite !forRange_succ by done.
      rewrite IH. simpl.
      rewrite (Z.max_r 0 n), (Z.max_r 0 (Z.succ n)) by lia.
      f_equal. lia.
Qed.

End Loops.

(** ** Pixel writes of loops *)

Section Paints.
Import Primitives.

Lemma paints_skip : paints (fun dc => dc) (fun _ => False).
Proof.
  intros dc. exists []. split; [by rewrite app_nil_r|].
  intros p. split; [by intros ?%elem_of_nil|done].
Qed.

Lemma paints_drawPixel x y color :
  paints (fun dc => drawPixel dc x y color) (fun p => p = (x, y, color)).
Proof.
  intros dc. exists [(x, y, color)]. split; [done|].
  intros p. apply list_elem_of_singleton.
Qed.

Lemma paints_iff f P Q :
  (forall p, P p <-> Q p) -> paints f P -> paints f Q.
Proof.
  intros HPQ Hf dc. destruct (Hf dc) as (ws & Hws & Hin).
  exists ws. split; [done|]. intros p. by rewrite Hin.
Qed.

Lemma paints_ext f g P :
  (forall dc, f dc = g dc) -> paints f P -> paints g P.
Proof. intros Hfg Hf dc. rewrite <- Hfg. apply Hf. Qed.

Lemma paints_foldl {A} (f : DC -> A -> DC) (P : A -> Pixel -> Prop) l :
  (forall a, a ∈ l -> paints (fun dc => f dc a) (P a)) ->
  paints (fun dc => foldl f dc l) (fun p => exists a, a ∈ l /\ P a p).
Proof.
  induction l as [|a l IH]; intros Hf.
  - eapply paints_iff; [|apply paints_skip].
    intros p. split; [done|]. by intros (a & ?%elem_of_nil & _).
  - intros dc. simpl.
    destruct (Hf a (list_elem_of_here _ _) dc) as (ws1 & Hws1 & Hin1).
    destruct (IH (fun b Hb => Hf b (list_elem_of_further _ _ _ Hb)) (f dc a))
      as (ws2 & Hws2 & Hin2).
    exists (ws1 ++ ws2). split.
    + by rewrite Hws2, Hws1, app_assoc.
    + intros p. rewrite elem_of_app, Hin1, Hin2. split.
      * intros [Hp|(b & Hb & Hp)].
        -- exists a. split; [left|done].
        -- exists b. split; [by right|done].
      * intros (b & Hb & Hp). apply elem_of_cons in Hb as [->|Hb].
        -- by left.
        -- right. by exists b.
Qed.

Lemma paints_forRange n (body : DC -> Z -> DC) (P : Z -> Pixel -> Prop) :
  (forall i, 0 <= i < n -> paints (fun dc => body dc i) (P i)) ->
  paints (forRange n body) (fun p => exists i, 0 <= i < n /\ P i p).
Proof.
  intros Hbody. unfold forRange.
  eapply paints_iff; [|apply (paints_foldl body P)].
  - intros p. split; intros (i & Hi & Hp); exists i; split; try done.
    + apply elem_of_seqZ in Hi. lia.
    + apply elem_of_seqZ. lia.
  - intros i Hi. apply Hbody. apply elem_of_seqZ in Hi. lia.
Qed.

(** The body shared by the decoders: a pixel is written when the bit
    tested is set. *)
Lemma paints_if (b : bool) x y color :
  paints (fun dc => if b then drawPixel dc x y color else dc)
         (fun p => b = true /\ p = (x, y, color)).
Proof.
  destruct b.
  - eapply paints_iff; [|apply paints_drawPixel].
    intros p. split; [by intros ->|by intros [_ ->]].
  - eapply paints_iff; [|apply paints_skip].
    intros p. split; [done|by intros [? _]].
Qed.

End Paints.

(** ** The XBitmap decoder *)

Section XBitmap.
Import Primitives.

Lemma rem8_nonneg col : 0 <= col -> JS.rem col 8 = col mod 8.
Proof. intros Hc. unfold JS.rem. apply Z.rem_mod_nonneg; lia. Qed.

Lemma mod8_range i : 0 <= i mod 8 < 31.
Proof. pose proof (Z.mod_pos_bound i 8). lia. Qed.

Lemma drawXBitmap_paints x y bytes w h color :
  paints (fun dc => drawXBitmap dc x y bytes w h color)
    (fun p => exists row col, 0 <= row < h /\ 0 <= col < w /\
       xbmPixel bytes w col row = true /\ p = (x + col, y + row, color)).
Proof.
  unfold drawXBitmap.
  eapply paints_iff; [|apply paints_forRange; intros row Hrow;
    apply paints_forRange; intros col Hcol; apply paints_if].
  intros p. split.
  - intros (row & Hrow & col & Hcol & Hbit & ->).
    exists row, col. repeat split; try lia.
    unfold xbmPixel. rewrite <- Hbit, rem8_nonneg by lia.
    symmetry. apply test_bitAt, mod8_range.
  - intros (row & col & Hrow & Hcol & Hbit & ->).
    exists row. split; [done|]. exists col. split; [done|]. split; [|done].
    rewrite rem8_nonneg by lia. unfold JS.floorDiv.
    rewrite test_bitAt by apply mod8_range. exact Hbit.
Qed.

End XBitmap.

Section XBitmapClaims.
Import Primitives.

Lemma drawXBitmap_one_pixel dc x y color :
  painted (drawXBitmap dc x y [0x01] 8 1 color)
  = painted dc ++ [(x, y, color)].
Proof.
  transitivity (painted dc ++ [(x + 0, y + 0, color)]).
  - vm_compute. reflexivity.
  - by rewrite !Z.add_0_r.
Qed.

(** C3. [drawXBitmap] writes [color] at [(x+col, y+row)], for [row] in
    [0..h-1] and [col] in [0..w-1], exactly when bit [col mod 8] of
    [bytes[row * ceil(w/8) + floor(col/8)]] is set (LSB-first); it writes
    nothing else, so pixels whose bit is unset are left untouched.  The
    image of width 8 and height 1 with bytes [[0b00000001]] draws exactly
    one pixel, at column 0. *)
Theorem drawXBitmap_lsb_first dc x y bytes w h color :
  (exists ws,
     painted (drawXBitmap dc x y bytes w h color) = painted dc ++ ws /\
     forall px py c, (px, py, c) ∈ ws <->
       c = color /\
       exists row col, 0 <= row < h /\ 0 <= col < w /\
         px = x + col /\ py = y + row /\
         bitAt bytes (row * JS.ceilDiv w 8 + col / 8) (col mod 8) = true)
  /\ JS.ceilDiv w 8 = (w + 7) / 8
  /\ painted (drawXBitmap dc x y [0x01] 8 1 color)
     = painted dc ++ [(x, y, color)].
Proof.
  split; [|split].
  - destruct (drawXBitmap_paints x y bytes w h color dc) as (ws & Hws & Hin).
    exists ws. split; [done|]. intros px py c. rewrite Hin. split.
    + intros (row & col & Hrow & Hcol & Hbit & [= -> -> ->]).
      split; [done|]. by exists row, col.
    + intros (-> & row & col & Hrow & Hcol & -> & -> & Hbit).
      by exists row, col.
  - unfold JS.ceilDiv.
    pose proof (Z.div_mod (- w) 8) as H1. pose proof (Z.mod_pos_bound (- w) 8).
    pose proof (Z.div_mod (w + 7) 8) as H2.
    pose proof (Z.mod_pos_bound (w + 7) 8). lia.
  - apply drawXBitmap_one_pixel.
Qed.

Lemma floorMul_unit n w : w <> 0 -> JS.floorMul n (JS.div w w) = Some n.
Proof.
  intros Hw. unfold JS.div, JS.floorMul.
  destruct (Z.eqb_spec w 0) as [|_]; [done|]. f_equal.
  rewrite <- (Qfloor_Z n) at 2. apply Qfloor_comp.
  unfold Qdiv. rewrite Qmult_inv_r, Qmult_1_r; [reflexivity|].
  intros Heq. apply Hw. unfold Qeq in Heq. simpl in Heq. lia.
Qed.

(** C6. At scale factor 1 the scaled decoder is the unscaled one: for
    [w > 0] and [h > 0], [drawXBitmapScaled] with target size [w] by [h]
    leaves the context exactly as [drawXBitmap] does, so both write the
    same pixels with the same color. *)
Theorem drawXBitmapScaled_unit_scale dc x y bytes w h color :
  w > 0 -> h > 0 ->
  drawXBitmapScaled dc x y bytes w h w h color
  = drawXBitmap dc x y bytes w h color.
Proof.
  intros Hw Hh. unfold drawXBitmapScaled, drawXBitmap.
  apply forRange_ext. intros dc1 row _.
  apply forRange_ext. intros dc2 col _.
  rewrite !floorMul_unit by lia. reflexivity.
Qed.

Lemma drawXBitmapScaled_unit_scale_witness :
  drawXBitmapScaled
    (DrawingContext.mk (Canvas.mk "white" []) 16 16) 2 3
    [0x05; 0x80; 0xFF; 0x01] 10 2 10 2 "black"
  = drawXBitmap
    (DrawingContext.mk (Canvas.mk "white" []) 16 16) 2 3
    [0x05; 0x80; 0xFF; 0x01] 10 2 "black".
Proof. apply drawXBitmapScaled_unit_scale; lia. Defined.

(** C9. For a target size with [destW <= 0] or [destH <= 0] the scaled
    decoder runs no loop body: it returns the context it was given, with
    no pixel written, whatever the scale factors are. *)
Theorem drawXBitmapScaled_degenerate dc x y bytes srcW srcH destW destH color :
  destW <= 0 \/ destH <= 0 ->
  drawXBitmapScaled dc x y bytes srcW srcH destW destH color = dc.
Proof.
  intros Hd. unfold drawXBitmapScaled.
  destruct (Z.le_gt_cases destH 0) as [Hh|Hh].
  - by apply forRange_nonpos.
  - destruct Hd as [Hw|?]; [|lia].
    apply forRange_idle. intros dc1 row _. by apply forRange_nonpos.
Qed.

Lemma drawXBitmapScaled_degenerate_witness :
  drawXBitmapScaled
    (DrawingContext.mk (Canvas.mk "white" [(1, 1, "black")]) 16 16) 2 3
    [0xFF; 0xFF] 8 2 0 5 "black"
  = DrawingContext.mk (Canvas.mk "white" [(1, 1, "black")]) 16 16.
Proof. apply drawXBitmapScaled_degenerate. left. lia. Defined.

End XBitmapClaims.

(** ** The glyph decoder *)

Section GlyphDecoder.
Import Primitives Fonts.
Context (x y : Z) (glyph : GFXGlyph.t) (font : GFXFont.t) (color : Color).

Local Abbreviation w := (GFXGlyph.width glyph).
Local Abbreviation h := (GFXGlyph.height glyph).

(** One row of the glyph: the bit index advances by one per column. *)
Lemma drawGlyph_row dc b row :
  forRange w (fun st col =>
      let '(dc, bitIndex) := st in
      let byteIndex := GFXGlyph.offset glyph + JS.floorDiv bitIndex 8 in
      let bit := 7 - JS.rem bitIndex 8 in
      let dc :=
        if JS.truthy (JS.band
              (JS.operand (JS.index (GFXFont.bitmap font) byteIndex))
              (JS.shl 1 bit))
        then drawPixel dc (x + GFXGlyph.xOffset glyph + col)
                          (y + GFXGlyph.yOffset glyph + row) color
        else dc in
      (dc, bitIndex + 1)) (dc, b)
  = (forRange w (fun dc col =>
       drawGlyphBit x y glyph font color dc (b + col * 1) col row) dc,
     b + Z.max 0 w * 1).
Proof.
  rewrite <- (forRange_counter
    (fun dc i col => drawGlyphBit x y glyph font color dc i col row)).
  apply forRange_ext. by intros [dc1 i] col _.
Qed.

(** The whole glyph, read without the running bit index. *)
Lemma drawGlyphBits_indexed dc :
  drawGlyphBits dc x y glyph font color
  = (forRange h (fun dc row =>
       forRange w (fun dc col =>
         drawGlyphBit x y glyph font color dc
           (0 + row * (Z.max 0 w * 1) + col * 1) col row) dc) dc,
     0 + Z.max 0 h * (Z.max 0 w * 1)).
Proof.
  unfold drawGlyphBits. fold w h.
  rewrite <- (forRange_counter
    (fun dc b row =>
       forRange w (fun dc col =>
         drawGlyphBit x y glyph font color dc (b + col * 1) col row) dc)).
  apply forRange_ext. intros [dc1 b] row _. apply drawGlyph_row.
Qed.

Lemma drawGlyphBits_paints :
  paints (fun dc => fst (drawGlyphBits dc x y glyph font color))
    (fun p => exists row col, 0 <= row < h /\ 0 <= col < w /\
       glyphPixel font glyph col row = true /\
       p = (x + GFXGlyph.xOffset glyph + col,
            y + GFXGlyph.yOffset glyph + row, color)).
Proof.
  eapply paints_ext.
  { intros dc. by rewrite drawGlyphBits_indexed. }
  simpl.
  eapply paints_iff; [|apply paints_forRange; intros row Hrow;
    apply paints_forRange; intros col Hcol; apply paints_if].
  assert (forall row col, 0 <= row < h -> 0 <= col < w ->
    JS.truthy (JS.band
      (JS.operand (JS.index (GFXFont.bitmap font)
         (GFXGlyph.offset glyph
          + JS.floorDiv (0 + row * (Z.max 0 w * 1) + col * 1) 8)))
      (JS.shl 1 (7 - JS.rem (0 + row * (Z.max 0 w * 1) + col * 1) 8)))
    = glyphPixel font glyph col row) as Hbit.
  { intros row col Hrow Hcol. unfold glyphPixel. fold w.
    replace (0 + row * (Z.max 0 w * 1) + col * 1) with (row * w + col)
      by (rewrite Z.max_r by lia; lia).
    assert (0 <= row * w + col) by nia.
    rewrite rem8_nonneg by done.
    pose proof (Z.mod_pos_bound (row * w + col) 8).
    apply test_bitAt. lia. }
  intros p. split.
  - intros (row & Hrow & col & Hcol & Hb & ->).
    exists row, col. rewrite Hbit in Hb by done. done.
  - intros (row & col & Hrow & Hcol & Hb & ->).
    exists row. split; [done|]. exists col. split; [done|].
    rewrite Hbit by done. done.
Qed.

End GlyphDecoder.

Section GlyphClaims.
Import Primitives Fonts.

(** C2. [drawGlyph] returns 0 and writes nothing when the font has no
    glyph for [code]; for a glyph of width 0 it writes nothing and returns
    its [xAdvance]; otherwise it returns [xAdvance] and writes [color] at
    [(x + xOffset + col, y + yOffset + row)], for [row] in [0..height-1]
    and [col] in [0..width-1], exactly when bit [7 - (i mod 8)] of
    [bitmap[offset + floor(i/8)]] is set, [i = row * width + col] being
    the running bit index (MSB-first).  A glyph of width 8, height 1 and
    offset 0 over the bitmap [[0b10000000]] draws exactly one pixel, at
    [(x + xOffset, y + yOffset)]. *)
Theorem drawGlyph_msb_first dc x y code font color :
  (GFXFont.glyphs font !! code = None ->
     drawGlyph dc x y code font color = (dc, 0))
  /\ (forall glyph, GFXFont.glyphs font !! code = Some glyph ->
       snd (drawGlyph dc x y code font color) = GFXGlyph.xAdvance glyph
       /\ (GFXGlyph.width glyph = 0 ->
             drawGlyph dc x y code font color
             = (dc, GFXGlyph.xAdvance glyph))
       /\ exists ws,
            painted (fst (drawGlyph dc x y code font color))
            = painted dc ++ ws /\
            forall px py c, (px, py, c) ∈ ws <->
              c = color /\
              exists row col,
                0 <= row < GFXGlyph.height glyph /\
                0 <= col < GFXGlyph.width glyph /\
                px = x + GFXGlyph.xOffset glyph + col /\
                py = y + GFXGlyph.yOffset glyph + row /\
                let i := row * GFXGlyph.width glyph + col in
                bitAt (GFXFont.bitmap font)
                      (GFXGlyph.offset glyph + i / 8) (7 - i mod 8) = true)
  /\ (forall glyph, GFXFont.glyphs font !! code = Some glyph ->
       GFXGlyph.width glyph = 8 -> GFXGlyph.height glyph = 1 ->
       GFXGlyph.offset glyph = 0 -> GFXFont.bitmap font = [0x80] ->
       painted (fst (drawGlyph dc x y code font color))
       = painted dc
         ++ [(x + GFXGlyph.xOffset glyph, y + GFXGlyph.yOffset glyph,
              color)]).
Proof.
  unfold drawGlyph. split; [|split].
  - by intros ->.
  - intros glyph ->. split; [|split].
    + by destruct (GFXGlyph.width glyph =? 0).
    + by intros ->.
    + destruct (Z.eqb_spec (GFXGlyph.width glyph) 0) as [Hw0|Hw0]; simpl.
      * exists []. split; [by rewrite app_nil_r|].
        intros px py c. split; [by intros ?%elem_of_nil|].
        intros (_ & row & col & _ & Hcol & _). lia.
      * destruct (drawGlyphBits_paints x y glyph font color dc)
          as (ws & Hws & Hin).
        exists ws. split; [done|]. intros px py c. rewrite Hin. split.
        -- intros (row & col & Hrow & Hcol & Hbit & [= -> -> ->]).
           split; [done|]. by exists row, col.
        -- intros (-> & row & col & Hrow & Hcol & -> & -> & Hbit).
           by exists row, col.
  - intros glyph -> Hw Hh Ho Hb. rewrite Hw. simpl.
    unfold drawGlyphBits. rewrite Hw, Hh, Ho, Hb.
    transitivity (painted dc ++ [(x + GFXGlyph.xOffset glyph + 0,
                                  y + GFXGlyph.yOffset glyph + 0, color)]).
    + vm_compute. reflexivity.
    + by rewrite !Z.add_0_r.
Qed.

Lemma drawGlyph_msb_first_witness :
  let dc := Examples.dc0 in
  let font := Examples.font0 in
  drawGlyph dc 5 20 66 font "black" = (dc, 0)
  /\ drawGlyph dc 5 20 32 font "black" = (dc, 6)
  /\ snd (drawGlyph dc 5 20 65 font "black") = 10
  /\ painted (fst (drawGlyph dc 5 20 65 font "black"))
     = [(6, 13, "black")].
Proof.
  intros dc font.
  destruct (drawGlyph_msb_first dc 5 20 66 font "black") as (Habsent & _).
  destruct (drawGlyph_msb_first dc 5 20 32 font "black")
    as (_ & Hspace & _).
  destruct (drawGlyph_msb_first dc 5 20 65 font "black")
    as (_ & Hpresent & Hone).
  split; [|split; [|split]].
  - apply Habsent. reflexivity.
  - apply (Hspace Examples.glyphSpace); reflexivity.
  - apply (Hpresent Examples.glyphA). reflexivity.
  - apply (Hone Examples.glyphA); reflexivity.
Defined.

End GlyphClaims.

(** ** Text layout *)

Section TextLayout.
Import Primitives Fonts.
Context (font : GFXFont.t).

Lemma drawGlyph_advance dc x y code color :
  snd (drawGlyph dc x y code font color) = glyphAdvance font code.
Proof.
  unfold drawGlyph, glyphAdvance.
  destruct (GFXFont.glyphs font !! code) as [glyph|]; [|done].
  by destruct (GFXGlyph.width glyph =? 0).
Qed.

Lemma drawTextLoop_cursor y color chars : forall dc x,
  snd (foldl (fun st char =>
      let '(dc, cursorX) := st in
      let '(dc, advance) :=
        drawGlyph dc cursorX y (JS.charCodeAt0 char) font color in
      (dc, cursorX + advance)) (dc, x) chars)
  = x + sumZ (advances font chars).
Proof.
  induction chars as [|char chars IH]; intros dc x; simpl; [lia|].
  pose proof (drawGlyph_advance dc x y (JS.charCodeAt0 char) color) as Hadv.
  destruct (drawGlyph dc x y (JS.charCodeAt0 char) font color)
    as [dc1 advance].
  simpl in Hadv. subst advance. rewrite IH. lia.
Qed.

Lemma getTextWidth_loop chars : forall width,
  foldl (fun width char =>
    match GFXFont.glyphs font !! JS.charCodeAt0 char with
    | Some glyph => width + GFXGlyph.xAdvance glyph
    | None => width
    end) width chars
  = width + sumZ (advances font chars).
Proof.
  induction chars as [|char chars IH]; intros width; simpl; [lia|].
  rewrite IH. unfold glyphAdvance.
  destruct (GFXFont.glyphs font !! JS.charCodeAt0 char); lia.
Qed.

Lemma advances_present chars :
  sumZ (advances font chars)
  = sumZ (GFXGlyph.xAdvance <$> omap (glyphOf font) chars).
Proof.
  induction chars as [|char chars IH]; simpl; [done|].
  rewrite IH. unfold glyphAdvance, glyphOf.
  by destruct (GFXFont.glyphs font !! JS.charCodeAt0 char).
Qed.

Lemma getTextWidth_sum text :
  getTextWidth text font = sumZ (advances font (JS.stringIterator text)).
Proof. unfold getTextWidth. by rewrite getTextWidth_loop. Qed.

Lemma drawTextLoop_end dc text x y color :
  snd (drawTextLoop dc text x y font color) = x + getTextWidth text font.
Proof.
  unfold drawTextLoop. by rewrite drawTextLoop_cursor, getTextWidth_sum.
Qed.

(** The loop of [getTextBounds] once a glyph has been seen. *)
Lemma getTextBounds_later chars : forall width minY maxY,
  foldl (getTextBoundsStep font) (mkBounds width minY maxY false) chars
  = mkBounds (width + sumZ (advances font chars))
      (foldl Z.min minY (glyphTop <$> omap (glyphOf font) chars))
      (foldl Z.max maxY (glyphBottom <$> omap (glyphOf font) chars))
      false.
Proof.
  induction chars as [|char chars IH]; intros width minY maxY; simpl.
  { f_equal. lia. }
  unfold getTextBoundsStep at 2, glyphAdvance, glyphOf. simpl.
  destruct (GFXFont.glyphs font !! JS.charCodeAt0 char) as [glyph|]; simpl.
  - rewrite IH. unfold glyphTop, glyphBottom. f_equal.
    + lia.
    + f_equal. destruct (Z.ltb_spec (GFXGlyph.yOffset glyph) minY); lia.
    + f_equal. rewrite Z.gtb_ltb.
      destruct (Z.ltb_spec maxY
        (GFXGlyph.yOffset glyph + GFXGlyph.height glyph)); lia.
  - rewrite IH. f_equal; lia.
Qed.

(** The loop of [getTextBounds] before any glyph has been seen. *)
Lemma getTextBounds_first chars : forall width minY maxY,
  foldl (getTextBoundsStep font) (mkBounds width minY maxY true) chars
  = match omap (glyphOf font) chars with
    | [] => mkBounds width minY maxY true
    | glyph :: rest =>
        mkBounds (width + sumZ (advances font chars))
          (foldl Z.min (glyphTop glyph) (glyphTop <$> rest))
          (foldl Z.max (glyphBottom glyph) (glyphBottom <$> rest))
          false
    end.
Proof.
  induction chars as [|char chars IH]; intros width minY maxY; simpl.
  { done. }
  unfold getTextBoundsStep at 2, glyphAdvance, glyphOf. simpl.
  destruct (GFXFont.glyphs font !! JS.charCodeAt0 char) as [glyph|] eqn:Hg;
    simpl.
  - rewrite getTextBounds_later. f_equal; try reflexivity.
    unfold advances. lia.
  - rewrite IH. unfold glyphOf, omap.
    destruct (list_omap _ _ _ chars); [done|]. f_equal; try reflexivity.
Qed.

Lemma foldl_min_le l : forall m, foldl Z.min m l <= m /\
  forall t, t ∈ l -> foldl Z.min m l <= t.
Proof.
  induction l as [|a l IH]; intros m; simpl.
  - split; [lia|]. by intros t ?%elem_of_nil.
  - destruct (IH (Z.min m a)) as [H1 H2]. split; [lia|].
    intros t [->|Ht]%elem_of_cons; [lia|by apply H2].
Qed.

Lemma foldl_max_ge l : forall m, m <= foldl Z.max m l /\
  forall t, t ∈ l -> t <= foldl Z.max m l.
Proof.
  induction l as [|a l IH]; intros m; simpl.
  - split; [lia|]. by intros t ?%elem_of_nil.
  - destruct (IH (Z.max m a)) as [H1 H2]. split; [lia|].
    intros t [->|Ht]%elem_of_cons; [lia|by apply H2].
Qed.

End TextLayout.

Section TextClaims.
Import Primitives Fonts.

(** C1. [getTextWidth] equals the net cursor displacement of [drawText],
    the final [cursorX] minus the starting [x]; both are the sum of
    [xAdvance] over the characters of the string that the font has, a
    character without a glyph contributing 0. *)
Theorem getTextWidth_is_cursor_displacement dc text x y font color :
  getTextWidth text font = snd (drawTextLoop dc text x y font color) - x
  /\ getTextWidth text font
     = sumZ (GFXGlyph.xAdvance <$> presentGlyphs font text)
  /\ getTextWidth text font
     = sumZ ((fun char => glyphAdvance font (JS.charCodeAt0 char))
             <$> JS.stringIterator text).
Proof.
  split; [|split].
  - rewrite drawTextLoop_end. lia.
  - rewrite getTextWidth_sum. apply advances_present.
  - apply getTextWidth_sum.
Qed.

(** C4. [getTextBounds] returns [w] equal to [getTextWidth] and
    [h = yMax - yMin].  Over the glyphs of the characters the font has,
    in order, the first one sets [yMin] to its top ([yOffset]) and [yMax]
    to its bottom ([yOffset + height]) and every later one extends the
    running minimum and maximum, so no present glyph lies outside
    [yMin .. yMax].  When the font has none of the characters, the empty
    string included, the result is the zero bounds. *)
Theorem getTextBounds_extent text font :
  let b := getTextBounds text font in
  TextBounds.w b = getTextWidth text font
  /\ TextBounds.h b = TextBounds.yMax b - TextBounds.yMin b
  /\ match presentGlyphs font text with
     | [] => b = TextBounds.mk 0 0 0 0
     | glyph :: rest =>
         TextBounds.yMin b
         = foldl Z.min (glyphTop glyph) (glyphTop <$> rest)
         /\ TextBounds.yMax b
            = foldl Z.max (glyphBottom glyph) (glyphBottom <$> rest)
     end
  /\ (forall glyph, glyph ∈ presentGlyphs font text ->
        TextBounds.yMin b <= GFXGlyph.yOffset glyph /\
        GFXGlyph.yOffset glyph + GFXGlyph.height glyph <= TextBounds.yMax b)
  /\ getTextBounds [] font = TextBounds.mk 0 0 0 0.
Proof.
  unfold getTextBounds, presentGlyphs.
  rewrite getTextBounds_first.
  split; [|split; [done|split; [|split; [|done]]]].
  - rewrite getTextWidth_sum.
    pose proof (advances_present font (JS.stringIterator text)) as Hsum.
    unfold omap in *.
    destruct (list_omap _ _ _ (JS.stringIterator text)); simpl in *; lia.
  - by destruct (omap _ (JS.stringIterator text)).
  - intros glyph Hin.
    destruct (omap _ (JS.stringIterator text)) as [|g rest]; simpl.
    { by apply elem_of_nil in Hin. }
    destruct (foldl_min_le (glyphTop <$> rest) (glyphTop g)) as [Hm1 Hm2].
    destruct (foldl_max_ge (glyphBottom <$> rest) (glyphBottom g))
      as [HM1 HM2].
    apply elem_of_cons in Hin as [->|Hin]; [done|].
    split.
    + apply Hm2. by apply (list_elem_of_fmap_2 glyphTop).
    + apply HM2. by apply (list_elem_of_fmap_2 glyphBottom).
Qed.

Lemma getTextBounds_extent_witness :
  let b := getTextBounds [65; 32; 66] Examples.font0 in
  TextBounds.yMin b <= GFXGlyph.yOffset Examples.glyphSpace /\
  GFXGlyph.yOffset Examples.glyphSpace
  + GFXGlyph.height Examples.glyphSpace <= TextBounds.yMax b.
Proof.
  destruct (getTextBounds_extent [65; 32; 66] Examples.font0)
    as (_ & _ & _ & Hin & _).
  apply (Hin Examples.glyphSpace).
  vm_compute. apply list_elem_of_further, list_elem_of_here.
Defined.

(** C7. [drawTextCentered] renders the text from
    [startX = x + floor((width - textWidth) / 2)], where [textWidth] is
    [getTextWidth text font]; the text ends at [startX + textWidth], so
    when [width - textWidth] is odd the padding on the right of the text
    is one pixel more than the padding [floor((width - textWidth) / 2)]
    on its left. *)
Theorem drawTextCentered_floor_bias dc text x y width font color :
  let textWidth := getTextWidth text font in
  let startX := x + (width - textWidth) / 2 in
  let endX := snd (drawTextLoop dc text startX y font color) in
  drawTextCentered dc text x y width font color
  = drawText dc text startX y font color
  /\ endX = startX + textWidth
  /\ (Z.odd (width - textWidth) = true ->
        startX - x = (width - textWidth) / 2 /\
        (x + width) - endX = (startX - x) + 1).
Proof.
  intros textWidth startX endX. split; [done|]. split.
  - apply drawTextLoop_end.
  - intros Hodd. split; [unfold startX; lia|].
    unfold endX. rewrite drawTextLoop_end. fold textWidth.
    pose proof (Zdiv2_odd_eqn (width - textWidth)) as Heq.
    rewrite Hodd, Z.div2_div in Heq. unfold startX. lia.
Qed.

Lemma drawTextCentered_floor_bias_witness :
  let dc := Examples.dc0 in
  let font := Examples.font0 in
  let startX := 3 + (21 - 16) / 2 in
  startX - 3 = 2 /\
  (3 + 21) - snd (drawTextLoop dc [65; 32] startX 20 font "black")
  = (startX - 3) + 1.
Proof.
  destruct (drawTextCentered_floor_bias Examples.dc0 [65; 32] 3 20 21
              Examples.font0 "black") as (_ & _ & Hodd).
  apply Hodd. reflexivity.
Defined.

(** C10. [hasChar] is true exactly when [first <= code <= last] and the
    font has a glyph for [code].  For a glyph stored at a code outside
    [first .. last], [hasChar] is false while [getGlyph] returns the glyph
    and [drawGlyph] and [drawText] draw it and advance by its [xAdvance]:
    the result of [drawGlyph] does not depend on [first] and [last]. *)
Theorem hasChar_range_only font code :
  (hasChar font code = true <->
     GFXFont.first font <= code <= GFXFont.last font /\
     is_Some (GFXFont.glyphs font !! code))
  /\ (forall dc x y color first' last',
        drawGlyph dc x y code
          (GFXFont.mk (GFXFont.name font) (GFXFont.bitmap font)
             (GFXFont.glyphs font) first' last' (GFXFont.yAdvance font))
          color
        = drawGlyph dc x y code font color)
  /\ (forall glyph, GFXFont.glyphs font !! code = Some glyph ->
        code < GFXFont.first font \/ GFXFont.last font < code ->
        hasChar font code = false
        /\ getGlyph font code = Some glyph
        /\ forall dc x y color,
             drawGlyph dc x y code font color
             = (if GFXGlyph.width glyph =? 0 then dc
                else fst (drawGlyphBits dc x y glyph font color),
                GFXGlyph.xAdvance glyph)
             /\ drawTextLoop dc [code] x y font color
                = (fst (drawGlyph dc x y code font color),
                   x + GFXGlyph.xAdvance glyph)).
Proof.
  split; [|split].
  - unfold hasChar. rewrite !andb_true_iff, bool_decide_eq_true.
    rewrite Z.geb_le, Z.leb_le. tauto.
  - intros dc x y color first' last'. reflexivity.
  - intros glyph Hg Hout. split; [|split].
    + unfold hasChar. apply andb_false_iff. left.
      apply andb_false_iff. rewrite Z.geb_leb, !Z.leb_gt. lia.
    + exact Hg.
    + intros dc x y color.
      assert (drawGlyph dc x y code font color
              = (if GFXGlyph.width glyph =? 0 then dc
                 else fst (drawGlyphBits dc x y glyph font color),
                 GFXGlyph.xAdvance glyph)) as Hdraw.
      { unfold drawGlyph. rewrite Hg.
        by destruct (GFXGlyph.width glyph =? 0). }
      split; [done|].
      unfold drawTextLoop. simpl. unfold JS.charCodeAt0. simpl.
      by rewrite Hdraw.
Qed.

Lemma hasChar_range_only_witness :
  let dc := Examples.dc0 in
  let font := Examples.font0 in
  hasChar font 200 = false
  /\ getGlyph font 200 = Some Examples.glyphExtra
  /\ snd (drawGlyph dc 0 10 200 font "black") = 3
  /\ painted (fst (drawGlyph dc 0 10 200 font "black"))
     = [(0, 9, "black")]
  /\ snd (drawTextLoop dc [200] 0 10 font "black") = 3.
Proof.
  intros dc font.
  destruct (hasChar_range_only font 200) as (_ & _ & Hout).
  destruct (Hout Examples.glyphExtra) as (Hhas & Hget & Hdraw).
  { reflexivity. }
  { right. vm_compute. reflexivity. }
  destruct (Hdraw dc 0 10 "black") as [Hglyph Htext].
  split; [exact Hhas|]. split; [exact Hget|].
  rewrite Htext, Hglyph. repeat split.
Defined.

End TextClaims.

(** ** Right alignment *)

Section RightAlignment.
Import Primitives Fonts.

(** The ink of one glyph lies in the columns
    [x + xOffset .. x + xOffset + width - 1]. *)
Lemma drawGlyph_columns dc x y code font color :
  exists ws,
    painted (fst (drawGlyph dc x y code font color)) = painted dc ++ ws /\
    forall px py c, (px, py, c) ∈ ws ->
      exists glyph, GFXFont.glyphs font !! code = Some glyph /\
        x + GFXGlyph.xOffset glyph <= px
        < x + GFXGlyph.xOffset glyph + GFXGlyph.width glyph.
Proof.
  unfold drawGlyph.
  destruct (GFXFont.glyphs font !! code) as [glyph|] eqn:Hg; simpl.
  - destruct (GFXGlyph.width glyph =? 0); simpl.
    + exists []. split; [by rewrite app_nil_r|].
      by intros px py c ?%elem_of_nil.
    + destruct (drawGlyphBits_paints x y glyph font color dc)
        as (ws & Hws & Hin).
      exists ws. split; [done|]. intros px py c Hp.
      apply Hin in Hp as (row & col & Hrow & Hcol & _ & [= -> -> ->]).
      exists glyph. split; [done|lia].
  - exists []. split; [by rewrite app_nil_r|].
    by intros px py c ?%elem_of_nil.
Qed.

(** With glyphs that stay within a forward advance, the text drawn from
    [x] keeps its ink left of the final cursor. *)
Lemma drawTextLoop_ink font y color :
  noOverhang font -> forwardAdvance font ->
  forall chars dc x,
  let st := foldl (fun st char =>
      let '(dc, cursorX) := st in
      let '(dc, advance) :=
        drawGlyph dc cursorX y (JS.charCodeAt0 char) font color in
      (dc, cursorX + advance)) (dc, x) chars in
  exists ws,
    painted (fst st) = painted dc ++ ws /\ x <= snd st /\
    forall px py c, (px, py, c) ∈ ws -> px < snd st.
Proof.
  intros Hover Hfwd.
  induction chars as [|char chars IH]; intros dc x; simpl.
  - exists []. split; [by rewrite app_nil_r|]. split; [lia|].
    by intros px py c ?%elem_of_nil.
  - destruct (drawGlyph_columns dc x y (JS.charCodeAt0 char) font color)
      as (ws1 & Hws1 & Hin1).
    pose proof (drawGlyph_advance font dc x y (JS.charCodeAt0 char) color)
      as Hadv.
    destruct (drawGlyph dc x y (JS.charCodeAt0 char) font color)
      as [dc1 advance].
    simpl in Hws1, Hadv. subst advance.
    destruct (IH dc1 (x + glyphAdvance font (JS.charCodeAt0 char)))
      as (ws2 & Hws2 & Hle & Hin2).
    assert (0 <= glyphAdvance font (JS.charCodeAt0 char)) as Hnonneg.
    { unfold glyphAdvance.
      destruct (GFXFont.glyphs font !! JS.charCodeAt0 char) eqn:Hg; [|lia].
      exact (Hfwd _ _ Hg). }
    exists (ws1 ++ ws2). split; [|split].
    + by rewrite Hws2, Hws1, app_assoc.
    + lia.
    + intros px py c [Hp|Hp]%elem_of_app; [|by eapply Hin2].
      apply Hin1 in Hp as (glyph & Hg & Hpx).
      pose proof (Hover _ _ Hg) as Hfit. simpl in Hfit.
      assert (glyphAdvance font (JS.charCodeAt0 char)
              = GFXGlyph.xAdvance glyph) as Ha.
      { unfold glyphAdvance. by rewrite Hg. }
      lia.
Qed.

Lemma backward_font_ink :
  painted (drawTextRightAligned Examples.dc0 [65; 66] 10 20
             BackwardFont.font "black")
  = [(14, 20, "black")].
Proof. vm_compute. reflexivity. Qed.

(** C8, as stated, fails: in [BackwardFont.font] every glyph satisfies
    [xOffset + width <= xAdvance], yet right-aligning "AB" at
    [rightX = 10] writes the pixel of 'A' at [x = 14]. *)
Lemma inkLeftOf_counterexample :
  noOverhang BackwardFont.font /\ ~ inkLeftOf BackwardFont.font.
Proof.
  split.
  - unfold noOverhang. apply (bool_decide_unpack _). vm_compute. exact I.
  - intros Hclaim.
    specialize (Hclaim Examples.dc0 [65; 66] 10 20 "black"
                  [(14, 20, "black")] 14 20 "black").
    rewrite backward_font_ink in Hclaim.
    specialize (Hclaim eq_refl (list_elem_of_here _ _)). lia.
Qed.

(** C8, amended.  For every font in which every glyph satisfies
    [xOffset + width <= xAdvance] and [0 <= xAdvance], every pixel written
    by [drawTextRightAligned] has an x-coordinate of at most
    [rightX - 1], for every string. *)
Theorem drawTextRightAligned_ink font :
  noOverhang font -> forwardAdvance font -> inkLeftOf font.
Proof.
  intros Hover Hfwd dc text rightX y color ws px py c Hws Hp.
  unfold drawTextRightAligned, drawText in Hws.
  pose proof (drawTextLoop_end font dc text
                (rightX - getTextWidth text font) y color) as Hend.
  unfold drawTextLoop in Hws, Hend.
  destruct (drawTextLoop_ink font y color Hover Hfwd
              (JS.stringIterator text) dc
              (rightX - getTextWidth text font)) as (ws' & Hws' & _ & Hin).
  rewrite Hws' in Hws. apply app_inv_head in Hws. subst ws'.
  apply Hin in Hp. rewrite Hend in Hp. lia.
Qed.

Lemma drawTextRightAligned_ink_witness : inkLeftOf Examples.font0.
Proof.
  apply drawTextRightAligned_ink.
  - unfold noOverhang. apply (bool_decide_unpack _). vm_compute. exact I.
  - unfold forwardAdvance. apply (bool_decide_unpack _). vm_compute.
    exact I.
Defined.

End RightAlignment.

(** ** The built-in 5x7 font *)

Section BuiltinFont.
Import Primitives Fonts.

Lemma drawBuiltinTextLoop_cursor y color chars : forall dc x,
  snd (foldl (fun st char =>
      let '(dc, cursorX) := st in
      (drawBuiltinChar dc cursorX y char color, cursorX + 6))
      (dc, x) chars)
  = x + 6 * Z.of_nat (List.length chars).
Proof.
  induction chars as [|char chars IH]; intros dc x.
  - simpl. lia.
  - cbn [foldl List.length]. rewrite IH. lia.
Qed.

(** A string without lead surrogates is iterated unit by unit. *)
Lemma stringIterator_units text :
  Forall (fun u => JS.isLeadSurrogate u = false) text ->
  JS.stringIterator text = (fun u => JS.mkChar u None) <$> text.
Proof.
  induction 1 as [|u rest Hu Hrest IH]; [done|].
  cbn [JS.stringIterator]. rewrite Hu. cbn [andb].
  destruct rest as [|v rest']; [done|].
  rewrite IH. done.
Qed.

(** C5. [drawBuiltinChar] draws nothing for a character code outside
    [0x20 .. 0x7F]; [drawBuiltinText] still advances the cursor by exactly
    6 for every character it iterates, drawable or not; and
    [getBuiltinTextWidth s] is [s.length * 6] for every string, which for
    a string without surrogate pairs is the displacement of the cursor.
    With an external font a character without a glyph advances by 0. *)
Theorem builtin_font_fixed_advance :
  (forall dc x y char color,
     JS.charCodeAt0 char < 0x20 \/ JS.charCodeAt0 char > 0x7F ->
     drawBuiltinChar dc x y char color = dc)
  /\ (forall dc text x y color,
        snd (drawBuiltinTextLoop dc text x y color)
        = x + 6 * Z.of_nat (List.length (JS.stringIterator text)))
  /\ (forall text, getBuiltinTextWidth text = JS.length text * 6)
  /\ (forall dc text x y color,
        Forall (fun u => JS.isLeadSurrogate u = false) text ->
        snd (drawBuiltinTextLoop dc text x y color) - x
        = getBuiltinTextWidth text)
  /\ (forall dc x y code font color,
        GFXFont.glyphs font !! code = None ->
        drawGlyph dc x y code font color = (dc, 0)).
Proof.
  split; [|split; [|split; [|split]]].
  - intros dc x y char color Hout. unfold drawBuiltinChar.
    destruct (Z.ltb_spec (JS.charCodeAt0 char) 0x20); [done|].
    destruct (Z.gtb_spec (JS.charCodeAt0 char) 0x7f); [done|]. lia.
  - intros dc text x y color. apply drawBuiltinTextLoop_cursor.
  - done.
  - intros dc text x y color Hunits. unfold drawBuiltinTextLoop.
    rewrite drawBuiltinTextLoop_cursor, stringIterator_units by done.
    rewrite length_fmap. unfold getBuiltinTextWidth, JS.length. lia.
  - intros dc x y code font color Hnone. unfold drawGlyph.
    by rewrite Hnone.
Qed.

Lemma builtin_font_fixed_advance_witness :
  let dc := Examples.dc0 in
  drawBuiltinChar dc 0 0 (JS.mkChar 0x0A None) "black" = dc
  /\ drawBuiltinChar dc 0 0 (JS.mkChar 0xE9 None) "black" = dc
  /\ snd (drawBuiltinTextLoop dc [0x48; 0x0A; 0xE9] 4 0 "black") - 4
     = getBuiltinTextWidth [0x48; 0x0A; 0xE9]
  /\ drawGlyph dc 0 0 0x0A Examples.font0 "black" = (dc, 0).
Proof.
  intros dc.
  destruct builtin_font_fixed_advance
    as (Hout & _ & _ & Hascii & Habsent).
  split; [|split; [|split]].
  - apply Hout. left. reflexivity.
  - apply Hout. right. reflexivity.
  - apply Hascii. repeat constructor.
  - apply Habsent. reflexivity.
Defined.

(** A surrogate pair is one character for [drawBuiltinText] and two code
    units for [getBuiltinTextWidth]. *)
Example builtin_surrogate_pair :
  snd (drawBuiltinTextLoop Examples.dc0 [0xD83D; 0xDE00] 0 0 "black") = 6
  /\ getBuiltinTextWidth [0xD83D; 0xDE00] = 12.
Proof. split; reflexivity. Qed.

End BuiltinFont.

(** ** Text as a sequence of glyphs *)

Section CursorLoops.
Import Primitives Fonts.

(** A loop that draws each item at the cursor and then moves the cursor: the
    cursor ends after the sum of the advances, and the pixels written are
    those of every item drawn at the cursor it was reached with. *)
Lemma cursorLoop_paints {A} (draw : DC -> Z -> A -> DC) (adv : A -> Z)
    (P : Z -> A -> Pixel -> Prop) :
  (forall cx a, paints (fun dc => draw dc cx a) (P cx a)) ->
  forall l dc x,
    let st := foldl (fun st a => (draw (fst st) (snd st) a, snd st + adv a))
                    (dc, x) l in
    snd st = x + sumZ (adv <$> l) /\
    exists ws, painted (fst st) = painted dc ++ ws /\
      forall p, p ∈ ws <->
        exists i a, l !! i = Some a /\
          P (x + sumZ (adv <$> take i l)) a p.
Proof.
  intros Hdraw. induction l as [|a l IH]; intros dc x; simpl.
  - split; [lia|]. exists []. split; [by rewrite app_nil_r|].
    intros p. split; [by intros ?%elem_of_nil|].
    by intros (i & b & Hi & _).
  - destruct (IH (draw dc x a) (x + adv a)) as (Hend & ws2 & Hws2 & Hin2).
    destruct (Hdraw x a dc) as (ws1 & Hws1 & Hin1).
    split; [rewrite Hend; unfold fmap; lia|].
    exists (ws1 ++ ws2). split; [by rewrite Hws2, Hws1, app_assoc|].
    intros p. rewrite elem_of_app, Hin1, Hin2. split.
    + intros [Hp|(i & b & Hi & Hp)].
      * exists 0%nat, a. split; [done|]. simpl. by rewrite Z.add_0_r.
      * exists (S i), b. split; [done|]. simpl.
        by rewrite Z.add_assoc.
    + intros ([|i] & b & Hi & Hp); simpl in *.
      * left. injection Hi as <-. by rewrite Z.add_0_r in Hp.
      * right. exists i, b. split; [done|]. by rewrite Z.add_assoc in Hp.
Qed.

Lemma drawGlyph_paints font color x y code :
  paints (fun dc => fst (drawGlyph dc x y code font color))
         (glyphInk font color x y code).
Proof.
  unfold drawGlyph, glyphInk.
  destruct (GFXFont.glyphs font !! code) as [glyph|] eqn:Hg.
  - destruct (Z.eqb_spec (GFXGlyph.width glyph) 0) as [Hw|Hw]; simpl.
    + eapply paints_iff; [|apply paints_skip]. intros p. split; [done|].
      intros (g & row & col & [= <-] & _ & Hcol & _). lia.
    + eapply paints_iff; [|apply drawGlyphBits_paints]. intros p. split.
      * intros (row & col & Hrow & Hcol & Hbit & ->).
        by exists glyph, row, col.
      * intros (g & row & col & [= <-] & Hrow & Hcol & Hbit & ->).
        by exists row, col.
  - eapply paints_iff; [|apply paints_skip]. intros p. split; [done|].
    by intros (g & row & col & ? & _).
Qed.

End CursorLoops.

Section TextInk.
Import Primitives Fonts.

Lemma sumZ_app l1 l2 : sumZ (l1 ++ l2) = sumZ l1 + sumZ l2.
Proof. induction l1 as [|a l1 IH]; simpl; [done|]. rewrite IH. lia. Qed.

Lemma sumZ_nonneg l : Forall (fun a => 0 <= a) l -> 0 <= sumZ l.
Proof. induction 1; simpl; lia. Qed.

Lemma advances_nonneg font chars :
  forwardAdvance font -> Forall (fun a => 0 <= a) (advances font chars).
Proof.
  intros Hfwd. unfold advances. apply Forall_fmap, Forall_forall.
  intros char _. simpl. unfold glyphAdvance.
  destruct (GFXFont.glyphs font !! JS.charCodeAt0 char) eqn:Hg; [|lia].
  exact (Hfwd _ _ Hg).
Qed.

(** The cursor a character is reached with lies between the start and the
    end of the text when no advance is negative. *)
Lemma advances_prefix font chars i char :
  forwardAdvance font -> chars !! i = Some char ->
  0 <= sumZ (advances font (take i chars)) /\
  sumZ (advances font (take i chars))
  + glyphAdvance font (JS.charCodeAt0 char)
  <= sumZ (advances font chars).
Proof.
  intros Hfwd Hi. split.
  - apply sumZ_nonneg, advances_nonneg, Hfwd.
  - pose proof (sumZ_nonneg _ (advances_nonneg font (drop (S i) chars) Hfwd))
      as Hrest.
    assert (sumZ (advances font chars)
            = sumZ (advances font (take i chars))
              + (glyphAdvance font (JS.charCodeAt0 char)
                 + sumZ (advances font (drop (S i) chars)))) as ->; [|lia].
    rewrite <- (take_drop_middle chars i char Hi) at 1.
    unfold advances. by rewrite fmap_app, sumZ_app.
Qed.

Lemma drawTextLoop_generic font y color chars dc x :
  foldl (fun st char =>
      let '(dc, cursorX) := st in
      let '(dc, advance) :=
        drawGlyph dc cursorX y (JS.charCodeAt0 char) font color in
      (dc, cursorX + advance)) (dc, x) chars
  = foldl (fun st char =>
      (fst (drawGlyph (fst st) (snd st) y (JS.charCodeAt0 char) font color),
       snd st + glyphAdvance font (JS.charCodeAt0 char))) (dc, x) chars.
Proof.
  apply foldl_ext_in. intros [dc1 cx] char _. simpl.
  pose proof (drawGlyph_advance font dc1 cx y (JS.charCodeAt0 char) color)
    as Hadv.
  destruct (drawGlyph dc1 cx y (JS.charCodeAt0 char) font color).
  simpl in Hadv. by rewrite Hadv.
Qed.

(** The pixels of a text: those of the glyph of every character, drawn at
    the cursor reached after the characters before it. *)
Lemma drawText_pixels font dc text x y color :
  exists ws, wrote dc (drawText dc text x y font color) ws /\
    forall p, p ∈ ws <->
      exists i char, JS.stringIterator text !! i = Some char /\
        glyphInk font color
          (x + sumZ (advances font (take i (JS.stringIterator text)))) y
          (JS.charCodeAt0 char) p.
Proof.
  unfold drawText, drawTextLoop, wrote. rewrite drawTextLoop_generic.
  destruct (cursorLoop_paints
    (fun dc cx char => fst (drawGlyph dc cx y (JS.charCodeAt0 char) font color))
    (fun char => glyphAdvance font (JS.charCodeAt0 char))
    (fun cx char => glyphInk font color cx y (JS.charCodeAt0 char))
    (fun cx char => drawGlyph_paints font color cx y (JS.charCodeAt0 char))
    (JS.stringIterator text) dc x) as (_ & ws & Hws & Hin).
  exists ws. split; [exact Hws|]. exact Hin.
Qed.

(** X1. The pixels [drawText] writes are exactly the set pixels of the
    glyph of each character the font has, placed at the cursor reached by
    adding the advances of the characters before it to [x]; all of them are
    written in [color], after the writes the context already had. *)
Theorem drawText_glyph_by_glyph font dc text x y color :
  exists ws,
    painted (drawText dc text x y font color) = painted dc ++ ws /\
    forall px py c, (px, py, c) ∈ ws <->
      c = color /\
      exists i char glyph row col,
        JS.stringIterator text !! i = Some char /\
        GFXFont.glyphs font !! JS.charCodeAt0 char = Some glyph /\
        0 <= row < GFXGlyph.height glyph /\
        0 <= col < GFXGlyph.width glyph /\
        glyphPixel font glyph col row = true /\
        px = x + sumZ (advances font (take i (JS.stringIterator text)))
             + GFXGlyph.xOffset glyph + col /\
        py = y + GFXGlyph.yOffset glyph + row.
Proof.
  destruct (drawText_pixels font dc text x y color) as (ws & Hws & Hin).
  exists ws. split; [exact Hws|]. intros px py c. rewrite Hin.
  unfold glyphInk. split.
  - intros (i & char & Hi & glyph & row & col & Hg & Hrow & Hcol & Hbit
            & [= -> -> ->]).
    split; [done|]. by exists i, char, glyph, row, col.
  - intros (-> & i & char & glyph & row & col & Hi & Hg & Hrow & Hcol & Hbit
            & -> & ->).
    exists i, char. split; [done|]. by exists glyph, row, col.
Qed.

Lemma getTextBounds_contains font text glyph :
  glyph ∈ presentGlyphs font text ->
  TextBounds.yMin (getTextBounds text font) <= GFXGlyph.yOffset glyph /\
  GFXGlyph.yOffset glyph + GFXGlyph.height glyph
  <= TextBounds.yMax (getTextBounds text font).
Proof.
  unfold getTextBounds, presentGlyphs. rewrite getTextBounds_first.
  intros Hin. unfold glyphOf, omap in *.
  destruct (list_omap _ _ _ (JS.stringIterator text)) as [|g rest]; simpl.
  { by apply elem_of_nil in Hin. }
  destruct (foldl_min_le (glyphTop <$> rest) (glyphTop g)) as [Hm1 Hm2].
  destruct (foldl_max_ge (glyphBottom <$> rest) (glyphBottom g))
    as [HM1 HM2].
  apply elem_of_cons in Hin as [->|Hin]; [done|].
  split.
  - apply Hm2. by apply (list_elem_of_fmap_2 glyphTop).
  - apply HM2. by apply (list_elem_of_fmap_2 glyphBottom).
Qed.

Lemma drawText_rows font dc text x y color ws px py c :
  painted (drawText dc text x y font color) = painted dc ++ ws ->
  (px, py, c) ∈ ws ->
  c = color /\
  y + TextBounds.yMin (getTextBounds text font) <= py
  < y + TextBounds.yMax (getTextBounds text font).
Proof.
  intros Hws Hp.
  destruct (drawText_pixels font dc text x y color) as (ws' & Hws' & Hin).
  unfold wrote in Hws'. rewrite Hws' in Hws. apply app_inv_head in Hws.
  subst ws'. apply Hin in Hp
    as (i & char & Hi & glyph & row & col & Hg & Hrow & Hcol & _
        & [= -> -> ->]).
  split; [done|].
  assert (glyph ∈ presentGlyphs font text) as Hpresent.
  { apply list_elem_of_omap. exists char. split; [|done].
    by eapply list_elem_of_lookup_2. }
  apply getTextBounds_contains in Hpresent. lia.
Qed.

(** X2. The vertical bounds of [getTextBounds] cover the ink of [drawText]:
    every pixel written for a text drawn at baseline [y] is written in
    [color] and lies in the rows [y + yMin .. y + yMax - 1]. *)
Theorem drawText_within_bounds_rows font dc text x y color ws px py c :
  painted (drawText dc text x y font color) = painted dc ++ ws ->
  (px, py, c) ∈ ws ->
  c = color /\
  y + TextBounds.yMin (getTextBounds text font) <= py
  < y + TextBounds.yMax (getTextBounds text font).
Proof. apply drawText_rows. Qed.

Lemma drawText_within_bounds_rows_witness :
  ("black" : Color) = "black" /\
  20 + TextBounds.yMin (getTextBounds [65; 32] Examples.font0) <= 13
  < 20 + TextBounds.yMax (getTextBounds [65; 32] Examples.font0).
Proof.
  apply (drawText_within_bounds_rows Examples.font0 Examples.dc0 [65; 32]
           5 20 "black" [(6, 13, "black")] 6 13 "black").
  - vm_compute. reflexivity.
  - apply list_elem_of_here.
Defined.

Lemma drawText_columns font dc text x y color ws px py c :
  noOverhang font -> forwardAdvance font -> noLeftBearing font ->
  painted (drawText dc text x y font color) = painted dc ++ ws ->
  (px, py, c) ∈ ws ->
  x <= px < x + getTextWidth text font.
Proof.
  intros Hover Hfwd Hleft Hws Hp.
  destruct (drawText_pixels font dc text x y color) as (ws' & Hws' & Hin).
  unfold wrote in Hws'. rewrite Hws' in Hws. apply app_inv_head in Hws.
  subst ws'. apply Hin in Hp
    as (i & char & Hi & glyph & row & col & Hg & Hrow & Hcol & _
        & [= -> -> ->]).
  destruct (advances_prefix font _ i char Hfwd Hi) as [Hpre Hpost].
  unfold glyphAdvance in Hpost. rewrite Hg in Hpost.
  pose proof (Hover _ _ Hg) as Hfit. pose proof (Hleft _ _ Hg) as Hbear.
  simpl in Hfit, Hbear. rewrite getTextWidth_sum. lia.
Qed.

(** X3. In a font whose glyphs have no negative [xOffset], no negative
    [xAdvance] and [xOffset + width <= xAdvance], the ink of [drawText]
    stays in the columns [x .. x + getTextWidth(text) - 1]. *)
Theorem drawText_within_width font dc text x y color ws px py c :
  noOverhang font -> forwardAdvance font -> noLeftBearing font ->
  painted (drawText dc text x y font color) = painted dc ++ ws ->
  (px, py, c) ∈ ws ->
  x <= px < x + getTextWidth text font.
Proof. apply drawText_columns. Qed.

Lemma drawText_within_width_witness :
  5 <= 6 < 5 + getTextWidth [65; 32] Examples.font0.
Proof.
  apply (drawText_within_width Examples.font0 Examples.dc0 [65; 32]
           5 20 "black" [(6, 13, "black")] 6 13 "black").
  - unfold noOverhang. apply (bool_decide_unpack _). vm_compute. exact I.
  - unfold forwardAdvance. apply (bool_decide_unpack _). vm_compute. exact I.
  - unfold noLeftBearing. apply (bool_decide_unpack _). vm_compute. exact I.
  - vm_compute. reflexivity.
  - apply list_elem_of_here.
Defined.

(** X4. With such a font, a text that is not wider than the box is drawn
    by [drawTextCentered] inside the box: every pixel lies in the columns
    [x .. x + width - 1]. *)
Theorem drawTextCentered_inside_box font dc text x y width color ws px py c :
  noOverhang font -> forwardAdvance font -> noLeftBearing font ->
  getTextWidth text font <= width ->
  painted (drawTextCentered dc text x y width font color) = painted dc ++ ws ->
  (px, py, c) ∈ ws ->
  x <= px < x + width.
Proof.
  intros Hover Hfwd Hleft Hfits Hws Hp. unfold drawTextCentered in Hws.
  pose proof (drawText_columns font dc text _ y color ws px py c
                Hover Hfwd Hleft Hws Hp) as Hcols.
  unfold JS.floorDiv in Hcols.
  pose proof (Z.div_mod (width - getTextWidth text font) 2) as Hdiv.
  pose proof (Z.mod_pos_bound (width - getTextWidth text font) 2).
  lia.
Qed.

Lemma drawTextCentered_inside_box_witness : 3 <= 12 < 3 + 21.
Proof.
  apply (drawTextCentered_inside_box Examples.font0 Examples.dc0 [32; 65]
           3 20 21 "black" [(12, 13, "black")] 12 13 "black").
  - unfold noOverhang. apply (bool_decide_unpack _). vm_compute. exact I.
  - unfold forwardAdvance. apply (bool_decide_unpack _). vm_compute. exact I.
  - unfold noLeftBearing. apply (bool_decide_unpack _). vm_compute. exact I.
  - vm_compute. discriminate.
  - vm_compute. reflexivity.
  - apply list_elem_of_here.
Defined.

(** X5. A text in which every character the font has is a glyph of width 0
    (a space), or which has no character of the font at all, leaves the
    context exactly as it was: nothing is written and [fillStyle] is not
    touched. *)
Theorem drawText_inkless font dc text x y color :
  Forall (fun glyph => GFXGlyph.width glyph = 0) (presentGlyphs font text) ->
  drawText dc text x y font color = dc.
Proof.
  unfold presentGlyphs, drawText, drawTextLoop.
  generalize (JS.stringIterator text) as chars. intros chars. revert x.
  induction chars as [|char chars IH]; intros x Hall; simpl in *; [done|].
  unfold drawGlyph at 2.
  destruct (GFXFont.glyphs font !! JS.charCodeAt0 char) as [glyph|] eqn:Hg.
  - apply Forall_cons in Hall as [Hw Hall]. rewrite Hw. simpl.
    by apply IH.
  - by apply IH.
Qed.

Lemma drawText_inkless_witness :
  drawText Examples.dc0 [32; 66; 32] 5 20 Examples.font0 "black"
  = Examples.dc0.
Proof.
  apply drawText_inkless. vm_compute. repeat constructor.
Defined.

End TextInk.

(** ** Text drawn in pieces *)

Section TextPieces.
Import Primitives Fonts.

Lemma last_cons_nonempty {A} (u : A) l : l <> [] -> last (u :: l) = last l.
Proof. destruct l; [done|]. intros _. apply last_cons_cons. Qed.

Lemma stringIterator_two u v rest :
  JS.stringIterator (u :: v :: rest)
  = if JS.isLeadSurrogate u && JS.isTrailSurrogate v
    then JS.mkChar u (Some v) :: JS.stringIterator rest
    else JS.mkChar u None :: JS.stringIterator (v :: rest).
Proof. reflexivity. Qed.

(** The iterator reads the two parts of a string one after the other when
    no surrogate pair lies across the cut. *)
Lemma stringIterator_app s2 : forall n s1,
  (List.length s1 <= n)%nat -> noPairAcross s1 s2 ->
  JS.stringIterator (s1 ++ s2) = JS.stringIterator s1 ++ JS.stringIterator s2.
Proof.
  induction n as [|n IH]; intros s1 Hlen Hcut.
  { destruct s1; [done|]. simpl in Hlen. lia. }
  destruct s1 as [|u [|v rest]].
  - done.
  - unfold noPairAcross in Hcut. simpl in Hcut.
    destruct s2 as [|w s2']; [done|]. simpl in Hcut.
    change ([u] ++ w :: s2') with (u :: w :: s2').
    cbn [JS.stringIterator]. rewrite Hcut. done.
  - change ((u :: v :: rest) ++ s2) with (u :: v :: (rest ++ s2)).
    rewrite !stringIterator_two.
    destruct (JS.isLeadSurrogate u && JS.isTrailSurrogate v).
    + rewrite <- app_comm_cons. f_equal. apply IH.
      * simpl in Hlen. lia.
      * destruct rest as [|r rest']; [by unfold noPairAcross|].
        unfold noPairAcross in *.
        by rewrite !last_cons_nonempty in Hcut by done.
    + rewrite <- app_comm_cons. f_equal.
      change (v :: rest ++ s2) with ((v :: rest) ++ s2). apply IH.
      * simpl in Hlen. simpl. lia.
      * unfold noPairAcross in *.
        by rewrite last_cons_nonempty in Hcut by done.
Qed.

(** X6. A text may be drawn in two pieces: when the cut does not separate
    a surrogate pair, the widths of the pieces add up to the width of the
    whole, and drawing the first piece at [x] and the second at
    [x + getTextWidth(first)] gives exactly the context that drawing the
    whole text at [x] gives. *)
Theorem drawText_in_pieces font dc s1 s2 x y color :
  noPairAcross s1 s2 ->
  getTextWidth (s1 ++ s2) font = getTextWidth s1 font + getTextWidth s2 font
  /\ drawText dc (s1 ++ s2) x y font color
     = drawText (drawText dc s1 x y font color) s2
         (x + getTextWidth s1 font) y font color.
Proof.
  intros Hcut.
  pose proof (stringIterator_app s2 _ s1 (le_n _) Hcut) as Happ.
  split.
  - rewrite !getTextWidth_sum, Happ. unfold advances.
    by rewrite fmap_app, sumZ_app.
  - unfold drawText at 1 2. unfold drawTextLoop at 1. rewrite Happ, foldl_app.
    pose proof (drawTextLoop_end font dc s1 x y color) as Hend.
    unfold drawTextLoop in Hend.
    destruct (foldl _ (dc, x) (JS.stringIterator s1)) as [dc1 x1] eqn:Hs1.
    simpl in Hend. subst x1.
    unfold drawText, drawTextLoop. by rewrite Hs1.
Qed.

Lemma drawText_in_pieces_witness :
  getTextWidth ([65; 32] ++ [65]) Examples.font0
  = getTextWidth [65; 32] Examples.font0 + getTextWidth [65] Examples.font0
  /\ drawText Examples.dc0 ([65; 32] ++ [65]) 5 20 Examples.font0 "black"
     = drawText (drawText Examples.dc0 [65; 32] 5 20 Examples.font0 "black")
         [65] (5 + getTextWidth [65; 32] Examples.font0) 20
         Examples.font0 "black".
Proof. apply drawText_in_pieces. reflexivity. Defined.

End TextPieces.

(** ** The built-in font, pixel by pixel *)

Section BuiltinInk.
Import Primitives Fonts.

Lemma drawBuiltinChar_paints color x y char :
  paints (fun dc => drawBuiltinChar dc x y char color)
         (builtinInk color x y char).
Proof.
  unfold drawBuiltinChar, builtinInk.
  destruct (Z.ltb_spec (JS.charCodeAt0 char) 0x20) as [Hlo|Hlo]; simpl.
  { eapply paints_iff; [|apply paints_skip]. intros p.
    split; [done|]. intros [? _]. lia. }
  destruct (Z.gtb_spec (JS.charCodeAt0 char) 0x7f) as [Hhi|Hhi]; simpl.
  { eapply paints_iff; [|apply paints_skip]. intros p.
    split; [done|]. intros [? _]. lia. }
  eapply paints_iff; [|apply paints_forRange; intros col Hcol;
    apply paints_forRange; intros row Hrow; apply paints_if].
  intros p. unfold builtinPixel. split.
  - intros (col & Hcol & row & Hrow & Hbit & ->).
    split; [lia|]. exists col, row. repeat split; try lia.
    rewrite <- Hbit. symmetry. apply test_bitAt. lia.
  - intros (_ & col & row & Hcol & Hrow & Hbit & ->).
    exists col. split; [done|]. exists row. split; [done|]. split; [|done].
    rewrite test_bitAt by lia. exact Hbit.
Qed.

(** X7. For a code in [0x20 .. 0x7F], [drawBuiltinChar] finds its five
    column bytes in the table and writes [color] at [(x + col, y + row)],
    [col] in [0..4] and [row] in [0..6], exactly when bit [row] of
    [BUILTIN_5X7_FONT[(code - 0x20) * 5 + col]] is set: column-major,
    least significant bit on top. *)
Theorem drawBuiltinChar_column_major dc x y char color :
  0x20 <= JS.charCodeAt0 char <= 0x7F ->
  (forall col, 0 <= col < 5 ->
     is_Some (JS.index BUILTIN_5X7_FONT
                ((JS.charCodeAt0 char - 0x20) * 5 + col)))
  /\ exists ws,
       painted (drawBuiltinChar dc x y char color) = painted dc ++ ws /\
       forall px py c, (px, py, c) ∈ ws <->
         c = color /\
         exists col row, 0 <= col < 5 /\ 0 <= row < 7 /\
           px = x + col /\ py = y + row /\
           bitAt BUILTIN_5X7_FONT
                 ((JS.charCodeAt0 char - 0x20) * 5 + col) row = true.
Proof.
  intros Hcode. split.
  - intros col Hcol. unfold JS.index.
    destruct (Z.ltb_spec ((JS.charCodeAt0 char - 32) * 5 + col) 0); [lia|].
    apply lookup_lt_is_Some. change (List.length BUILTIN_5X7_FONT) with 480%nat.
    lia.
  - destruct (drawBuiltinChar_paints color x y char dc) as (ws & Hws & Hin).
    exists ws. split; [done|]. intros px py c. rewrite Hin.
    unfold builtinInk, builtinPixel. split.
    + intros (_ & col & row & Hcol & Hrow & Hbit & [= -> -> ->]).
      split; [done|]. by exists col, row.
    + intros (-> & col & row & Hcol & Hrow & -> & -> & Hbit).
      split; [done|]. by exists col, row.
Qed.

Lemma drawBuiltinChar_column_major_witness :
  is_Some (JS.index BUILTIN_5X7_FONT ((0x7F - 0x20) * 5 + 4)).
Proof.
  destruct (drawBuiltinChar_column_major Examples.dc0 10 20
              (JS.mkChar 0x7F None) "black") as (Hbytes & _).
  - vm_compute. split; discriminate.
  - apply (Hbytes 4). lia.
Defined.

Lemma stringIterator_length : forall n s,
  (List.length s <= n)%nat ->
  (List.length (JS.stringIterator s) <= List.length s)%nat.
Proof.
  induction n as [|n IH]; intros s Hlen.
  { destruct s; [done|]. simpl in Hlen. lia. }
  destruct s as [|u [|v rest]]; [done|done|].
  rewrite stringIterator_two.
  destruct (JS.isLeadSurrogate u && JS.isTrailSurrogate v).
  - cbn [List.length] in *. specialize (IH rest). lia.
  - cbn [List.length] in *. specialize (IH (v :: rest)).
    cbn [List.length] in IH. lia.
Qed.

Lemma sumZ_const {A} (l : list A) k :
  sumZ ((fun _ => k) <$> l) = k * Z.of_nat (List.length l).
Proof.
  induction l as [|a l IH]; [simpl; lia|].
  change (sumZ ((fun _ => k) <$> a :: l))
    with (k + sumZ ((fun _ : A => k) <$> l)).
  rewrite IH. cbn [List.length]. lia.
Qed.

(** The pixels of a built-in text: character [i] is drawn in the cell that
    starts at [x + 6 * i]. *)
Lemma drawBuiltinText_pixels dc text x y color :
  exists ws, wrote dc (drawBuiltinText dc text x y color) ws /\
    forall p, p ∈ ws <->
      exists i char, JS.stringIterator text !! i = Some char /\
        builtinInk color (x + 6 * Z.of_nat i) y char p.
Proof.
  unfold drawBuiltinText, drawBuiltinTextLoop, wrote.
  rewrite (foldl_ext_in _
    (fun st char => (drawBuiltinChar (fst st) (snd st) y char color,
                     snd st + (fun _ => 6) char)))
    by (by intros [dc1 cx] char _).
  destruct (cursorLoop_paints
    (fun dc cx char => drawBuiltinChar dc cx y char color)
    (fun _ => 6)
    (fun cx char => builtinInk color cx y char)
    (fun cx char => drawBuiltinChar_paints color cx y char)
    (JS.stringIterator text) dc x) as (_ & ws & Hws & Hin).
  exists ws. split; [exact Hws|]. intros p. rewrite Hin.
  split; intros (i & char & Hi & Hp); exists i, char; (split; [done|]).
  - rewrite sumZ_const, length_take, Nat.min_l in Hp; [done|].
    apply lookup_lt_Some in Hi. lia.
  - rewrite sumZ_const, length_take, Nat.min_l; [done|].
    apply lookup_lt_Some in Hi. lia.
Qed.

(** X8. [drawBuiltinText] draws character [i] of the text in its own cell
    of 6 columns: the pixels written are exactly the set pixels of every
    character with a code in [0x20 .. 0x7F], character [i] at
    [(x + 6 * i + col, y + row)]. *)
Theorem drawBuiltinText_cells dc text x y color :
  exists ws,
    painted (drawBuiltinText dc text x y color) = painted dc ++ ws /\
    forall px py c, (px, py, c) ∈ ws <->
      c = color /\
      exists i char col row,
        JS.stringIterator text !! i = Some char /\
        0x20 <= JS.charCodeAt0 char <= 0x7F /\
        0 <= col < 5 /\ 0 <= row < 7 /\
        bitAt BUILTIN_5X7_FONT
              ((JS.charCodeAt0 char - 0x20) * 5 + col) row = true /\
        px = x + 6 * Z.of_nat i + col /\ py = y + row.
Proof.
  destruct (drawBuiltinText_pixels dc text x y color) as (ws & Hws & Hin).
  exists ws. split; [exact Hws|]. intros px py c. rewrite Hin.
  unfold builtinInk, builtinPixel. split.
  - intros (i & char & Hi & Hcode & col & row & Hcol & Hrow & Hbit
            & [= -> -> ->]).
    split; [done|]. by exists i, char, col, row.
  - intros (-> & i & char & col & row & Hi & Hcode & Hcol & Hrow & Hbit
            & -> & ->).
    exists i, char. split; [done|]. split; [done|]. by exists col, row.
Qed.

Lemma drawBuiltinText_box dc text x y color ws px py c :
  painted (drawBuiltinText dc text x y color) = painted dc ++ ws ->
  (px, py, c) ∈ ws ->
  c = color /\ y <= py <= y + 6 /\
  x <= px <= x + getBuiltinTextWidth text - 2.
Proof.
  intros Hws Hp.
  destruct (drawBuiltinText_pixels dc text x y color) as (ws' & Hws' & Hin).
  unfold wrote in Hws'. rewrite Hws' in Hws. apply app_inv_head in Hws.
  subst ws'. apply Hin in Hp
    as (i & char & Hi & _ & col & row & Hcol & Hrow & _ & [= -> -> ->]).
  apply lookup_lt_Some in Hi.
  pose proof (stringIterator_length _ text (le_n _)) as Hlen.
  split; [done|]. unfold getBuiltinTextWidth, JS.length. lia.
Qed.

(** X9. The ink of [drawBuiltinText] stays in the box that
    [getBuiltinTextWidth] announces, for every string: every pixel is
    written in [color], in the rows [y .. y + 6] and in the columns
    [x .. x + getBuiltinTextWidth(text) - 2]. *)
Theorem drawBuiltinText_inside_box dc text x y color ws px py c :
  painted (drawBuiltinText dc text x y color) = painted dc ++ ws ->
  (px, py, c) ∈ ws ->
  c = color /\ y <= py <= y + 6 /\
  x <= px <= x + getBuiltinTextWidth text - 2.
Proof. apply drawBuiltinText_box. Qed.

Lemma drawBuiltinText_inside_box_witness :
  ("black" : Color) = "black" /\ 0 <= 5 <= 0 + 6 /\
  4 <= 11 <= 4 + getBuiltinTextWidth [0x20; 0x2E] - 2.
Proof.
  apply (drawBuiltinText_inside_box Examples.dc0 [0x20; 0x2E] 4 0 "black"
           [(11, 5, "black"); (11, 6, "black"); (12, 5, "black");
            (12, 6, "black")]).
  - vm_compute. reflexivity.
  - apply list_elem_of_here.
Defined.

End BuiltinInk.

(** ** Packed images: short arrays, scaling by exact factors, bands *)

Section XBitmapMore.
Import Primitives Fonts.

Lemma operand_index_zeros bytes n k :
  JS.operand (JS.index (bytes ++ replicate n 0) k)
  = JS.operand (JS.index bytes k).
Proof.
  unfold JS.index. destruct (k <? 0); [done|].
  destruct (bytes !! Z.to_nat k) as [b|] eqn:Hb.
  - by rewrite (lookup_app_l_Some _ _ _ _ Hb).
  - apply lookup_ge_None in Hb. rewrite lookup_app_r by done.
    destruct (replicate n 0 !! _) as [z|] eqn:Hz; [|done].
    apply lookup_replicate in Hz as [-> _]. done.
Qed.

Lemma operand_index_nil k : JS.operand (JS.index [] k) = 0.
Proof. unfold JS.index. by destruct (k <? 0). Qed.

(** X10. Bytes that the array does not have are read as 0: appending zero
    bytes to the byte array of an image, or to the bitmap of a font, changes
    nothing in what [drawXBitmap], [drawXBitmapScaled] and [drawGlyph] do,
    and an empty byte array draws nothing. *)
Theorem missing_bytes_read_as_zero dc x y bytes n color :
  (forall w h,
     drawXBitmap dc x y (bytes ++ replicate n 0) w h color
     = drawXBitmap dc x y bytes w h color)
  /\ (forall srcW srcH destW destH,
        drawXBitmapScaled dc x y (bytes ++ replicate n 0)
          srcW srcH destW destH color
        = drawXBitmapScaled dc x y bytes srcW srcH destW destH color)
  /\ (forall code name glyphs first last yAdvance,
        drawGlyph dc x y code
          (GFXFont.mk name (bytes ++ replicate n 0) glyphs first last
             yAdvance) color
        = drawGlyph dc x y code
            (GFXFont.mk name bytes glyphs first last yAdvance) color)
  /\ (forall w h, drawXBitmap dc x y [] w h color = dc).
Proof.
  split; [|split; [|split]].
  - intros w h. unfold drawXBitmap.
    apply forRange_ext. intros dc1 row _.
    apply forRange_ext. intros dc2 col _.
    by rewrite operand_index_zeros.
  - intros srcW srcH destW destH. unfold drawXBitmapScaled.
    apply forRange_ext. intros dc1 row _.
    apply forRange_ext. intros dc2 col _.
    destruct (JS.floorMul col _); [|done].
    destruct (JS.floorMul row _); [|done].
    by rewrite operand_index_zeros.
  - intros code name glyphs first last yAdvance. unfold drawGlyph. simpl.
    destruct (glyphs !! code) as [glyph|]; [|done].
    destruct (GFXGlyph.width glyph =? 0); [done|].
    f_equal. f_equal. unfold drawGlyphBits. simpl.
    apply forRange_ext. intros st1 row _.
    apply forRange_ext. intros [dc2 bitIndex] col _.
    by rewrite operand_index_zeros.
  - intros w h. unfold drawXBitmap.
    apply forRange_idle. intros dc1 row _.
    apply forRange_idle. intros dc2 col _.
    by rewrite operand_index_nil.
Qed.

Lemma Qfloor_div_Z a d :
  0 < d -> Qfloor (inject_Z a / inject_Z d) = a / d.
Proof.
  intros Hd. destruct d as [|p|p]; try lia.
  rewrite (Qfloor_comp _ (a # p)); [reflexivity|].
  symmetry. apply Qmake_Qdiv.
Qed.

(** With exact arithmetic the source coordinate is
    [floor(dest * src / destSize)]. *)
Lemma floorMul_div n a d :
  0 < d -> JS.floorMul n (JS.div a d) = Some (n * a / d).
Proof.
  intros Hd. unfold JS.floorMul, JS.div.
  destruct (Z.eqb_spec d 0) as [|_]; [lia|]. f_equal.
  rewrite <- Qfloor_div_Z by done. apply Qfloor_comp.
  rewrite inject_Z_mult. unfold Qdiv. apply Qmult_assoc.
Qed.

Lemma drawXBitmapScaled_sampled x y bytes srcW srcH destW destH color
    (fx fy : Z -> Z) :
  (forall c, 0 <= c < destW ->
     JS.floorMul c (JS.div srcW destW) = Some (fx c) /\ 0 <= fx c) ->
  (forall r, 0 <= r < destH ->
     JS.floorMul r (JS.div srcH destH) = Some (fy r)) ->
  paints (fun dc =>
            drawXBitmapScaled dc x y bytes srcW srcH destW destH color)
    (fun p => exists r c, 0 <= r < destH /\ 0 <= c < destW /\
       xbmPixel bytes srcW (fx c) (fy r) = true /\
       p = (x + c, y + r, color)).
Proof.
  intros Hx Hy. unfold drawXBitmapScaled.
  eapply paints_iff; [|apply (paints_forRange _ _
    (fun r p => exists c, 0 <= c < destW /\
       xbmPixel bytes srcW (fx c) (fy r) = true /\
       p = (x + c, y + r, color)))].
  - intros p. split.
    + intros (r & Hr & c & Hc & Hp). by exists r, c.
    + intros (r & c & Hr & Hc & Hp). exists r. split; [done|]. by exists c.
  - intros r Hr.
    eapply paints_iff; [|apply (paints_forRange _ _
      (fun c p => xbmPixel bytes srcW (fx c) (fy r) = true /\
         p = (x + c, y + r, color)))].
    + done.
    + intros c Hc. destruct (Hx c Hc) as [Hfx Hpos].
      rewrite Hfx, (Hy r Hr).
      eapply paints_iff; [|apply paints_if]. intros p.
      unfold xbmPixel. rewrite rem8_nonneg by done.
      rewrite test_bitAt by apply mod8_range. done.
Qed.

Lemma drawXBitmapScaled_cells x y bytes srcW srcH destW destH color :
  exists sample : Z -> Z -> bool,
  paints (fun dc =>
            drawXBitmapScaled dc x y bytes srcW srcH destW destH color)
    (fun p => exists r c, 0 <= r < destH /\ 0 <= c < destW /\
       sample r c = true /\ p = (x + c, y + r, color)).
Proof.
  exists (fun r c =>
    match JS.floorMul c (JS.div srcW destW),
          JS.floorMul r (JS.div srcH destH) with
    | Some srcCol, Some srcRow =>
        JS.truthy (JS.band
          (JS.operand (JS.index bytes
             (srcRow * JS.ceilDiv srcW 8 + JS.floorDiv srcCol 8)))
          (JS.shl 1 (JS.rem srcCol 8)))
    | _, _ => false
    end).
  unfold drawXBitmapScaled.
  eapply paints_iff; [|apply paints_forRange; intros r Hr;
    apply paints_forRange; intros c Hc;
    eapply paints_ext; [|apply paints_if]].
  - intros p. split.
    + intros (r & Hr & c & Hc & Hb & Hp). exists r, c. eauto.
    + intros (r & c & Hr & Hc & Hb & Hp). exists r. split; [done|].
      exists c. eauto.
  - intros dc. simpl.
    destruct (JS.floorMul c _); [|done].
    destruct (JS.floorMul r _); done.
Qed.

(** X11. Whatever the source and target sizes are, [drawXBitmapScaled]
    writes only inside the target rectangle: every pixel is written in
    [color], in the columns [x .. x + destW - 1] and the rows
    [y .. y + destH - 1]. *)
Theorem drawXBitmapScaled_inside_target dc x y bytes srcW srcH destW destH
    color ws px py c :
  painted (drawXBitmapScaled dc x y bytes srcW srcH destW destH color)
  = painted dc ++ ws ->
  (px, py, c) ∈ ws ->
  c = color /\ x <= px < x + destW /\ y <= py < y + destH.
Proof.
  intros Hws Hp.
  pose proof (drawXBitmapScaled_cells x y bytes srcW srcH destW destH color)
    as [sample Hpaints].
  destruct (Hpaints dc) as (ws' & Hws' & Hin).
  rewrite Hws' in Hws. apply app_inv_head in Hws. subst ws'.
  destruct (proj1 (Hin _) Hp) as (r & col & Hr & Hc & _ & Heq).
  injection Heq as Hpx Hpy Hcol. split; [done|]. lia.
Qed.

Lemma drawXBitmapScaled_inside_target_witness :
  ("black" : Color) = "black" /\ 2 <= 3 < 2 + 4 /\ 3 <= 3 < 3 + 2.
Proof.
  apply (drawXBitmapScaled_inside_target Examples.dc0 2 3 [0x02] 2 1 4 2
           "black"
           [(4, 3, "black"); (5, 3, "black"); (4, 4, "black");
            (5, 4, "black")] 4 3).
  - vm_compute. reflexivity.
  - apply list_elem_of_here.
Defined.

(** X12. Shrinking by whole factors samples every [kx]-th column and every
    [ky]-th row: for a source of [kx * destW] by [ky * destH] pixels,
    [drawXBitmapScaled] writes [(x + c, y + r)] exactly when the source
    pixel at column [kx * c] and row [ky * r] is set.  (The scale factors
    are the whole numbers [kx] and [ky], which doubles hold exactly.) *)
Theorem drawXBitmapScaled_downsample dc x y bytes kx ky destW destH color :
  0 < destW -> 0 < destH -> 0 <= kx -> 0 <= ky ->
  exists ws,
    painted (drawXBitmapScaled dc x y bytes (kx * destW) (ky * destH)
               destW destH color) = painted dc ++ ws /\
    forall px py c, (px, py, c) ∈ ws <->
      c = color /\
      exists row col, 0 <= row < destH /\ 0 <= col < destW /\
        px = x + col /\ py = y + row /\
        bitAt bytes
          (ky * row * JS.ceilDiv (kx * destW) 8 + kx * col / 8)
          ((kx * col) mod 8) = true.
Proof.
  intros Hw Hh Hkx Hky.
  destruct (drawXBitmapScaled_sampled x y bytes (kx * destW) (ky * destH)
              destW destH color (fun c => kx * c) (fun r => ky * r)) with dc
    as (ws & Hws & Hin).
  - intros c Hc. rewrite floorMul_div by done. split; [|nia].
    f_equal. rewrite Z.mul_assoc, Z.div_mul by lia. lia.
  - intros r Hr. rewrite floorMul_div by done.
    f_equal. rewrite Z.mul_assoc, Z.div_mul by lia. lia.
  - exists ws. split; [done|]. intros px py c. rewrite Hin.
    unfold xbmPixel. split.
    + intros (r & col & Hr & Hc & Hbit & [= -> -> ->]).
      split; [done|]. by exists r, col.
    + intros (-> & r & col & Hr & Hc & -> & -> & Hbit). by exists r, col.
Qed.

Lemma drawXBitmapScaled_downsample_witness :
  exists ws,
    painted (drawXBitmapScaled Examples.dc0 0 0 [0x05] (2 * 2) (1 * 1)
               2 1 "black") = painted Examples.dc0 ++ ws /\
    forall px py c, (px, py, c) ∈ ws <->
      c = "black" /\
      exists row col, 0 <= row < 1 /\ 0 <= col < 2 /\
        px = 0 + col /\ py = 0 + row /\
        bitAt [0x05]
          (1 * row * JS.ceilDiv (2 * 2) 8 + 2 * col / 8)
          ((2 * col) mod 8) = true.
Proof. apply drawXBitmapScaled_downsample; lia. Defined.

(** X13. Enlarging by a power of two repeats every source pixel in a
    square block: for a target of [2^n * srcW] by [2^n * srcH] pixels,
    [drawXBitmapScaled] writes [(x + c, y + r)] exactly when the source
    pixel at column [floor(c / 2^n)] and row [floor(r / 2^n)] is set.
    (The scale factor is [1 / 2^n], which doubles hold exactly.) *)
Theorem drawXBitmapScaled_pixel_blocks dc x y bytes srcW srcH (n : nat) color :
  0 < srcW -> 0 < srcH ->
  let k := 2 ^ Z.of_nat n in
  exists ws,
    painted (drawXBitmapScaled dc x y bytes srcW srcH (k * srcW) (k * srcH)
               color) = painted dc ++ ws /\
    forall px py c, (px, py, c) ∈ ws <->
      c = color /\
      exists row col, 0 <= row < k * srcH /\ 0 <= col < k * srcW /\
        px = x + col /\ py = y + row /\
        bitAt bytes
          (row / k * JS.ceilDiv srcW 8 + col / k / 8)
          ((col / k) mod 8) = true.
Proof.
  intros Hw Hh k.
  assert (0 < k) as Hk by (apply Z.pow_pos_nonneg; lia).
  destruct (drawXBitmapScaled_sampled x y bytes srcW srcH
              (k * srcW) (k * srcH) color
              (fun c => c / k) (fun r => r / k)) with dc
    as (ws & Hws & Hin).
  - intros c Hc. rewrite floorMul_div by nia. split.
    + f_equal. apply Z.div_mul_cancel_r; lia.
    + apply Z.div_pos; lia.
  - intros r Hr. rewrite floorMul_div by nia.
    f_equal. apply Z.div_mul_cancel_r; lia.
  - exists ws. split; [done|]. intros px py c. rewrite Hin.
    unfold xbmPixel. split.
    + intros (r & col & Hr & Hc & Hbit & [= -> -> ->]).
      split; [done|]. by exists r, col.
    + intros (-> & r & col & Hr & Hc & -> & -> & Hbit). by exists r, col.
Qed.

Lemma drawXBitmapScaled_pixel_blocks_witness :
  let k := 2 ^ Z.of_nat 1 in
  exists ws,
    painted (drawXBitmapScaled Examples.dc0 0 0 [0x02] 2 1 (k * 2) (k * 1)
               "black") = painted Examples.dc0 ++ ws /\
    forall px py c, (px, py, c) ∈ ws <->
      c = "black" /\
      exists row col, 0 <= row < k * 1 /\ 0 <= col < k * 2 /\
        px = 0 + col /\ py = 0 + row /\
        bitAt [0x02]
          (row / k * JS.ceilDiv 2 8 + col / k / 8)
          ((col / k) mod 8) = true.
Proof. apply (drawXBitmapScaled_pixel_blocks Examples.dc0); lia. Defined.

Lemma forRange_split {S} a b (body : S -> Z -> S) s :
  0 <= a -> 0 <= b ->
  forRange (a + b) body s
  = forRange b (fun s i => body s (a + i)) (forRange a body s).
Proof.
  intros Ha Hb. revert b Hb. apply natlike_ind.
  - rewrite Z.add_0_r. by rewrite (forRange_nonpos 0).
  - intros b Hb IH. rewrite Z.add_succ_r, !forRange_succ by lia.
    by rewrite IH.
Qed.

Lemma index_drop bytes n k :
  0 <= n -> 0 <= k ->
  JS.index (drop (Z.to_nat n) bytes) k = JS.index bytes (n + k).
Proof.
  intros Hn Hk. unfold JS.index.
  destruct (Z.ltb_spec k 0); [lia|]. destruct (Z.ltb_spec (n + k) 0); [lia|].
  rewrite lookup_drop. f_equal. lia.
Qed.

(** X14. An image can be drawn in two bands: for [w >= 0], drawing the
    first [h1] rows and then the remaining [h2] rows at [y + h1], from the
    bytes that follow the first [h1] rows, gives exactly the context that
    drawing all [h1 + h2] rows gives. *)
Theorem drawXBitmap_in_bands dc x y bytes w h1 h2 color :
  0 <= w -> 0 <= h1 -> 0 <= h2 ->
  drawXBitmap dc x y bytes w (h1 + h2) color
  = drawXBitmap (drawXBitmap dc x y bytes w h1 color) x (y + h1)
      (drop (Z.to_nat (h1 * JS.ceilDiv w 8)) bytes) w h2 color.
Proof.
  intros Hw Hh1 Hh2. unfold drawXBitmap.
  rewrite forRange_split by done.
  assert (0 <= JS.ceilDiv w 8) as Hstride.
  { unfold JS.ceilDiv. pose proof (Z.div_mod (- w) 8).
    pose proof (Z.mod_pos_bound (- w) 8). lia. }
  apply forRange_ext. intros dc1 row Hrow.
  apply forRange_ext. intros dc2 col Hcol.
  assert (0 <= col / 8) by (apply Z.div_pos; lia).
  unfold JS.floorDiv.
  rewrite index_drop by nia.
  replace (h1 * JS.ceilDiv w 8 + (row * JS.ceilDiv w 8 + col / 8))
    with ((h1 + row) * JS.ceilDiv w 8 + col / 8) by lia.
  by rewrite Z.add_assoc.
Qed.

Lemma drawXBitmap_in_bands_witness :
  drawXBitmap Examples.dc0 1 1 [0x01; 0x02; 0x04] 3 (1 + 2) "black"
  = drawXBitmap (drawXBitmap Examples.dc0 1 1 [0x01; 0x02; 0x04] 3 1 "black")
      1 (1 + 1) (drop (Z.to_nat (1 * JS.ceilDiv 3 8)) [0x01; 0x02; 0x04])
      3 2 "black".
Proof. apply drawXBitmap_in_bands; lia. Defined.

End XBitmapMore.

(** ** The simulator's text methods *)

Section SimulatorText.
Import Primitives Fonts.

Lemma drawXBitmap_color dc x y bytes w h color ws p :
  painted (drawXBitmap dc x y bytes w h color) = painted dc ++ ws ->
  p ∈ ws -> p.2 = color.
Proof.
  intros Hws Hp.
  destruct (drawXBitmap_paints x y bytes w h color dc) as (ws' & Hws' & Hin).
  rewrite Hws' in Hws. apply app_inv_head in Hws. subst ws'.
  destruct (proj1 (Hin _) Hp) as (row & col & _ & _ & _ & ->). done.
Qed.

(** X15. Without a font (none passed, none set) the simulator right-aligns
    with the built-in font, and for every string the ink ends left of
    [rightX]: every pixel is written in the chosen color, in the rows
    [y .. y + 6] and in a column not beyond [rightX - 2]. *)
Theorem sim_builtin_right_aligned sim text rightX y font color ws px py c :
  EinkSimulator.useFont sim font = None ->
  painted (EinkSimulator.dc
             (EinkSimulator.drawTextRightAligned sim text rightX y font color))
  = painted (EinkSimulator.dc sim) ++ ws ->
  (px, py, c) ∈ ws ->
  c = EinkSimulator.nullish color (EinkSimulator.textColor sim)
  /\ px <= rightX - 2 /\ y <= py <= y + 6.
Proof.
  intros Hfont Hws Hp. unfold EinkSimulator.drawTextRightAligned in Hws.
  rewrite Hfont in Hws. simpl in Hws.
  destruct (drawBuiltinText_box _ _ _ _ _ _ _ _ _ Hws Hp) as (Hc & Hy & Hx).
  split; [done|]. lia.
Qed.

Lemma sim_builtin_right_aligned_witness :
  let sim := EinkSimulator.mk Examples.dc0
               (DisplayConfig.mk 200 100 "#000000" "#FFFFFF") None "#000000" in
  ("#000000" : Color) = EinkSimulator.nullish None (EinkSimulator.textColor sim)
  /\ 45 <= 50 - 2 /\ 0 <= 5 <= 0 + 6.
Proof.
  intros sim.
  apply (sim_builtin_right_aligned sim [0x20; 0x2E] 50 0 None None
           [(45, 5, "#000000"); (45, 6, "#000000"); (46, 5, "#000000");
            (46, 6, "#000000")] 45 5 "#000000").
  - reflexivity.
  - vm_compute. reflexivity.
  - apply list_elem_of_here.
Defined.

Lemma sim_text_rows_color sim text x y font color ws px py c :
  painted (EinkSimulator.dc (EinkSimulator.drawText sim text x y font color))
  = painted (EinkSimulator.dc sim) ++ ws ->
  (px, py, c) ∈ ws ->
  c = EinkSimulator.nullish color (EinkSimulator.textColor sim)
  /\ y + TextBounds.yMin (EinkSimulator.getTextBounds sim text font) <= py
     < y + TextBounds.yMax (EinkSimulator.getTextBounds sim text font).
Proof.
  unfold EinkSimulator.drawText, EinkSimulator.getTextBounds.
  destruct (EinkSimulator.useFont sim font) as [f|]; simpl; intros Hws Hp.
  - exact (drawText_rows _ _ _ _ _ _ _ _ _ _ Hws Hp).
  - destruct (drawBuiltinText_box _ _ _ _ _ _ _ _ _ Hws Hp) as (Hc & Hy & Hx).
    split; [done|]. lia.
Qed.

(** X16. The bounds the simulator reports cover what it draws, with a font
    or with the built-in one: every pixel written by its [drawText] at
    [(x, y)] is written in [color ?? textColor] and lies in the rows
    [y + yMin .. y + yMax - 1] of its [getTextBounds] for the same text and
    font argument. *)
Theorem sim_text_within_bounds sim text x y font color ws px py c :
  painted (EinkSimulator.dc (EinkSimulator.drawText sim text x y font color))
  = painted (EinkSimulator.dc sim) ++ ws ->
  (px, py, c) ∈ ws ->
  c = EinkSimulator.nullish color (EinkSimulator.textColor sim)
  /\ y + TextBounds.yMin (EinkSimulator.getTextBounds sim text font) <= py
     < y + TextBounds.yMax (EinkSimulator.getTextBounds sim text font).
Proof. apply sim_text_rows_color. Qed.

Lemma sim_text_within_bounds_witness :
  let sim := EinkSimulator.mk Examples.dc0
               (DisplayConfig.mk 200 100 "#000000" "#FFFFFF")
               (Some Examples.font0) "#000000" in
  ("red" : Color) = EinkSimulator.nullish (Some "red")
                      (EinkSimulator.textColor sim)
  /\ 20 + TextBounds.yMin (EinkSimulator.getTextBounds sim [65; 32] None)
     <= 13
     < 20 + TextBounds.yMax (EinkSimulator.getTextBounds sim [65; 32] None).
Proof.
  intros sim.
  apply (sim_text_within_bounds sim [65; 32] 5 20 None (Some "red")
           [(6, 13, "red")] 6 13 "red").
  - vm_compute. reflexivity.
  - apply list_elem_of_here.
Defined.

(** X17. Without a font, a text whose built-in width fits the box is
    centered inside it: every pixel written by the simulator's
    [drawTextCentered] lies in the columns [x .. x + width - 1]. *)
Theorem sim_builtin_centered_inside_box sim text x y width font color
    ws px py c :
  EinkSimulator.useFont sim font = None ->
  getBuiltinTextWidth text <= width ->
  painted (EinkSimulator.dc
             (EinkSimulator.drawTextCentered sim text x y width font color))
  = painted (EinkSimulator.dc sim) ++ ws ->
  (px, py, c) ∈ ws ->
  x <= px < x + width.
Proof.
  intros Hfont Hfits Hws Hp. unfold EinkSimulator.drawTextCentered in Hws.
  rewrite Hfont in Hws. simpl in Hws.
  destruct (drawBuiltinText_box _ _ _ _ _ _ _ _ _ Hws Hp) as (_ & _ & Hx).
  unfold JS.floorDiv in Hx.
  pose proof (Z.div_mod (width - getBuiltinTextWidth text) 2).
  pose proof (Z.mod_pos_bound (width - getBuiltinTextWidth text) 2).
  lia.
Qed.

Lemma sim_builtin_centered_inside_box_witness : 10 <= 21 < 10 + 21.
Proof.
  apply (sim_builtin_centered_inside_box
           (EinkSimulator.mk Examples.dc0
              (DisplayConfig.mk 200 100 "#000000" "#FFFFFF") None "#000000")
           [0x20; 0x2E] 10 0 21 None None
           [(21, 5, "#000000"); (21, 6, "#000000"); (22, 5, "#000000");
            (22, 6, "#000000")] 21 5 "#000000").
  - reflexivity.
  - vm_compute. discriminate.
  - vm_compute. reflexivity.
  - apply list_elem_of_here.
Defined.

(** X18. [setTextColor] changes the color of text only: after it, text
    drawn without a color argument is written in the new text color, while
    an image drawn without a color argument is still written in the
    configured foreground color. *)
Theorem setTextColor_text_only sim color :
  (forall text x y font ws p,
     painted (EinkSimulator.dc
                (EinkSimulator.drawText
                   (EinkSimulator.setTextColor sim color) text x y font None))
     = painted (EinkSimulator.dc sim) ++ ws ->
     p ∈ ws -> p.2 = color)
  /\ (forall x y bytes w h ws p,
        painted (EinkSimulator.dc
                   (EinkSimulator.drawXBitmap
                      (EinkSimulator.setTextColor sim color)
                      x y bytes w h None))
        = painted (EinkSimulator.dc sim) ++ ws ->
        p ∈ ws ->
        p.2 = DisplayConfig.foreground (EinkSimulator.config sim)).
Proof.
  split.
  - intros text x y font ws [[px py] c] Hws Hp.
    destruct (sim_text_rows_color (EinkSimulator.setTextColor sim color)
                text x y font None ws px py c Hws Hp) as [Hc _].
    exact Hc.
  - intros x y bytes w h ws p Hws Hp.
    exact (drawXBitmap_color _ _ _ _ _ _ _ _ _ Hws Hp).
Qed.

Lemma setTextColor_text_only_witness :
  let sim := EinkSimulator.mk Examples.dc0
               (DisplayConfig.mk 200 100 "#000000" "#FFFFFF")
               (Some Examples.font0) "#000000" in
  ((6, 13, "red") : Pixel).2 = "red"
  /\ ((1, 1, "#000000") : Pixel).2
     = DisplayConfig.foreground (EinkSimulator.config sim).
Proof.
  intros sim.
  destruct (setTextColor_text_only sim "red") as [Htext Himage].
  split.
  - apply (Htext [65; 32] 5 20 None [(6, 13, "red")]).
    + vm_compute. reflexivity.
    + apply list_elem_of_here.
  - apply (Himage 1 1 [0x01] 8 1 [(1, 1, "#000000")]).
    + vm_compute. reflexivity.
    + apply list_elem_of_here.
Defined.

(** X19. The measures of a text are not negative in a well-formed font:
    [getTextWidth] is at least 0 when no glyph has a negative [xAdvance],
    and the height that [getTextBounds] reports is at least 0, and at least
    the height of every glyph of the text, when no glyph of the text has a
    negative height. *)
Theorem text_measures_nonnegative font text :
  (forwardAdvance font -> 0 <= getTextWidth text font)
  /\ (forall glyph, glyph ∈ presentGlyphs font text ->
        GFXGlyph.height glyph
        <= TextBounds.h (getTextBounds text font))
  /\ (Forall (fun glyph => 0 <= GFXGlyph.height glyph)
             (presentGlyphs font text) ->
      0 <= TextBounds.h (getTextBounds text font)).
Proof.
  assert (TextBounds.h (getTextBounds text font)
          = TextBounds.yMax (getTextBounds text font)
            - TextBounds.yMin (getTextBounds text font)) as Hh by done.
  split; [|split].
  - intros Hfwd. rewrite getTextWidth_sum.
    apply sumZ_nonneg, advances_nonneg, Hfwd.
  - intros glyph Hin. apply getTextBounds_contains in Hin. lia.
  - intros Hall.
    destruct (presentGlyphs font text) as [|glyph rest] eqn:Hpresent.
    + unfold getTextBounds. rewrite getTextBounds_first.
      unfold presentGlyphs in Hpresent. unfold glyphOf.
      by rewrite Hpresent.
    + assert (glyph ∈ presentGlyphs font text) as Hin.
      { rewrite Hpresent. apply list_elem_of_here. }
      apply getTextBounds_contains in Hin.
      apply Forall_cons in Hall as [Hpos _]. lia.
Qed.

Lemma text_measures_nonnegative_witness :
  0 <= getTextWidth [65; 32] Examples.font0
  /\ GFXGlyph.height Examples.glyphA
     <= TextBounds.h (getTextBounds [65; 32] Examples.font0)
  /\ 0 <= TextBounds.h (getTextBounds [65; 32] Examples.font0).
Proof.
  destruct (text_measures_nonnegative Examples.font0 [65; 32])
    as (Hw & Hglyph & Hh).
  split; [|split].
  - apply Hw. unfold forwardAdvance. apply (bool_decide_unpack _).
    vm_compute. exact I.
  - apply Hglyph. vm_compute. apply list_elem_of_here.
  - apply Hh. vm_compute. repeat constructor; discriminate.
Defined.

End SimulatorText.
